(** * vialsort: the puzzle state machine of [vialsort.py]

    A shallow embedding of the core of [src/vialsort.py]: the reversible
    actions [PourAction] and [AddEmptyVialAction], the [Board] with its undo
    history, the solved predicate and the puzzle loader [load_board]; then
    of [Board.get_max_color], [draw_vial] and the interactive loop
    [play_board], and of [src/vialsort_generator.py].

    Modelling choices.
    - A unit is a Python [int], here a [Z].  A vial is a Python list whose
      {e end} is the top of the stack; the embedding keeps that order, so
      [vial[-1]] is [last vial], [vial.append(x)] is [vial ++ [x]] and
      [vial.pop()] is [removelast vial].
    - [board.vials] is a Python list of references to list objects, and
      [Board.__init__] keeps the list its caller passes: one list object
      may be held at several indices.  The embedding keeps the sharing.
      [slots board] has one [slot] per index; a slot holds a list object of
      its own or the object of an earlier index, and [root] names a list
      object by the first index that holds it.  [from_vial] and [to_vial]
      of a pour are such names: they are the same object exactly when the
      names are equal, which two different indices may well give.  Every
      read and write through an index goes to the object; [vials board]
      is what reading [board.vials] index by index gives.
    - Python exceptions are results [Raise e]; none of them is caught by the
      core, so the state left behind by a raising call is not modelled.
    - The [while] loop of [PourAction.apply] takes fuel; [OutOfFuel] is
      returned for every amount of fuel exactly when the loop does not
      terminate.
    - Library calls are parameters: [json.loads], [rand.shuffle], and in the
      interactive loop [int] and [str.lower]; [input()] is the list of the
      lines it returns, and what is printed is the list of the strings of
      the [print] calls. *)

From Stdlib Require Import ZArith String QArith.
From stdpp Require Import base numbers list strings pretty.

Open Scope Z_scope.
Open Scope nat_scope.

(** * The embedding *)

(** ** Results of calls *)

Inductive exn : Type :=
| ValueError (msg : string)
| IndexError
| TypeError.

Inductive outcome (A : Type) : Type :=
| Ret (a : A)
| Raise (e : exn)
| OutOfFuel.

Arguments Ret {A} a.
Arguments Raise {A} e.
Arguments OutOfFuel {A}.

#[global] Instance outcome_bind : MBind outcome := λ A B k m,
  match m with
  | Ret a => k a
  | Raise e => Raise e
  | OutOfFuel => OutOfFuel
  end.

#[global] Instance outcome_fmap : FMap outcome := λ A B f m,
  match m with
  | Ret a => Ret (f a)
  | Raise e => Raise e
  | OutOfFuel => OutOfFuel
  end.

(** ** Python lists *)

(** [l[i]] resolves a possibly negative index against the length [n]. *)
Definition norm_index (n : nat) (i : Z) : option nat :=
  if bool_decide (0 ≤ i)%Z then
    if bool_decide (i < Z.of_nat n)%Z then Some (Z.to_nat i) else None
  else
    if bool_decide (- Z.of_nat n ≤ i)%Z then Some (Z.to_nat (Z.of_nat n + i)) else None.

(** ** The list of vials and its list objects *)

(** One index of [board.vials].  With [back = None] the index holds a list
    object of its own, whose contents are [own].  With [back = Some j] it
    holds the very object that index [j] holds, and [own] is not looked at. *)
Record slot : Type := mkSlot {
  back : option nat;
  own : list Z
}.

(** An index holding a new list object, and an index holding the object of
    index [j]. *)
Definition fresh (vial : list Z) : slot := {| back := None; own := vial |}.
Definition shared (j : nat) : slot := {| back := Some j; own := [] |}.

(** The first index that holds the list object of index [i].  A [back] is
    followed when it names an earlier index with an object of its own; any
    other [back] counts as [None], so that every list of slots is a list of
    vials. *)
Definition first_index (bs : list (option nat)) (i : nat) : nat :=
  match bs !! i with
  | Some (Some j) =>
      if bool_decide (j < i) then
        match bs !! j with
        | Some None => j
        | _ => i
        end
      else i
  | _ => i
  end.

(** The name of the list object at index [i]. *)
Definition root (ss : list slot) (i : nat) : nat := first_index (back <$> ss) i.

(** The contents of the list objects, by name. *)
Definition objects (ss : list slot) : list (list Z) := own <$> ss.

Definition deref (ss : list slot) (r : nat) : list Z := default [] (objects ss !! r).

(** The list object [r] gets the contents [vial]; no index holds another
    object than before. *)
Definition write (ss : list slot) (r : nat) (vial : list Z) : list slot :=
  alter (λ s, {| back := back s; own := vial |}) r ss.

(** [r.append(x)] *)
Definition vial_append (ss : list slot) (r : nat) (x : Z) : list slot :=
  write ss r (deref ss r ++ [x]).

(** [r.pop()], on a non-empty list *)
Definition vial_pop (ss : list slot) (r : nat) : list slot :=
  write ss r (removelast (deref ss r)).

(** [vials[index]]: the list object at a possibly negative index, [None]
    for [IndexError]. *)
Definition vial_ref (ss : list slot) (index : Z) : option nat :=
  root ss <$> norm_index (length ss) index.

(** The contents found at index [i], and at every index in turn. *)
Definition vial_at (ss : list slot) (i : nat) : list Z := deref ss (root ss i).

Definition view (ss : list slot) : list (list Z) :=
  vial_at ss <$> seq 0 (length ss).

(** The list object [r] is held at index [r] and at no other index. *)
Definition once (ss : list slot) (r : nat) : Prop :=
  r < length ss ∧ root ss r = r ∧ ∀ j, j < length ss → root ss j = r → j = r.

(** ** Actions and the board *)

Record PourAction : Type := mkPourAction {
  _from_index : Z;
  _to_index : Z;
  _qty_moved : nat;
  _applied : bool
}.

(** [PourAction.__init__] *)
Definition PourAction_init (from_index to_index : Z) : PourAction :=
  {| _from_index := from_index; _to_index := to_index;
     _qty_moved := 0; _applied := false |}.

Inductive Action : Type :=
| Pour (p : PourAction)
| AddEmptyVial.

Record Board : Type := mkBoard {
  vial_size : Z;
  slots : list slot;
  _history : list Action
}.

(** [board.vials], read index by index. *)
Definition vials (board : Board) : list (list Z) := view (slots board).

Definition set_slots (board : Board) (ss : list slot) : Board :=
  {| vial_size := vial_size board; slots := ss; _history := _history board |}.

Definition set_history (board : Board) (h : list Action) : Board :=
  {| vial_size := vial_size board; slots := slots board; _history := h |}.

(** The [while] loop of [PourAction.apply]: [from_vial] and [to_vial] are the
    two list objects, [qty] is [self._qty_moved]. *)
Fixpoint pour_loop (fuel : nat) (color : Z) (size : Z) (from_vial to_vial : nat)
    (ss : list slot) (qty : nat) : outcome (list slot * nat) :=
  match fuel with
  | 0 => OutOfFuel
  | S fuel' =>
      if bool_decide (0 < length (deref ss from_vial))
         && bool_decide (last (deref ss from_vial) = Some color)
         && bool_decide (Z.of_nat (length (deref ss to_vial)) < size)%Z
      then
        match last (deref ss from_vial) with
        | Some top =>
            let ss1 := vial_append ss to_vial top in
            let ss2 := vial_pop ss1 from_vial in
            pour_loop fuel' color size from_vial to_vial ss2 (S qty)
        | None => Raise IndexError
        end
      else Ret (ss, qty)
  end.

(** [PourAction.apply]: the result is the returned boolean, the action and
    the board after the call. *)
Definition PourAction_apply (fuel : nat) (self : PourAction) (board : Board)
    : outcome (bool * PourAction * Board) :=
  let self := {| _from_index := _from_index self; _to_index := _to_index self;
                 _qty_moved := _qty_moved self; _applied := true |} in
  match vial_ref (slots board) (_from_index self) with
  | None => Raise IndexError
  | Some from_vial =>
  match vial_ref (slots board) (_to_index self) with
  | None => Raise IndexError
  | Some to_vial =>
      if bool_decide (length (deref (slots board) from_vial) = 0) then
        Ret (false, self, board)
      else
        match last (deref (slots board) from_vial) with
        | None => Raise IndexError
        | Some color =>
            if bool_decide (0 < length (deref (slots board) to_vial))
               && negb (bool_decide (last (deref (slots board) to_vial) = Some color))
            then Ret (false, self, board)
            else
              '(ss, qty) ← pour_loop fuel color (vial_size board)
                             from_vial to_vial (slots board) (_qty_moved self) ;
              Ret (bool_decide (0 < qty),
                   {| _from_index := _from_index self; _to_index := _to_index self;
                      _qty_moved := qty; _applied := true |},
                   set_slots board ss)
        end
  end
  end.

(** The [for] loop of [PourAction.undo]: [to_vial.pop()] is evaluated first,
    then the popped unit is appended to [from_vial]. *)
Fixpoint undo_loop (n : nat) (from_vial to_vial : nat) (ss : list slot)
    : outcome (list slot) :=
  match n with
  | 0 => Ret ss
  | S n' =>
      match last (deref ss to_vial) with
      | None => Raise IndexError
      | Some x =>
          let ss1 := vial_pop ss to_vial in
          let ss2 := vial_append ss1 from_vial x in
          undo_loop n' from_vial to_vial ss2
      end
  end.

(** [PourAction.undo] *)
Definition PourAction_undo (self : PourAction) (board : Board) : outcome Board :=
  if negb (_applied self) then Raise (ValueError "Action not yet applied")
  else
    match vial_ref (slots board) (_from_index self) with
    | None => Raise IndexError
    | Some from_vial =>
    match vial_ref (slots board) (_to_index self) with
    | None => Raise IndexError
    | Some to_vial =>
        ss ← undo_loop (_qty_moved self) from_vial to_vial (slots board) ;
        Ret (set_slots board ss)
    end
    end.

(** [AddEmptyVialAction.apply] and [AddEmptyVialAction.undo]: [list()] is a
    new list object. *)
Definition AddEmptyVialAction_apply (board : Board) : outcome (bool * Board) :=
  Ret (true, set_slots board (slots board ++ [fresh []])).

Definition AddEmptyVialAction_undo (board : Board) : outcome Board :=
  match slots board with
  | [] => Raise IndexError
  | _ => Ret (set_slots board (removelast (slots board)))
  end.

(** Dynamic dispatch of [action.apply(board)] and [action.undo(board)]. *)
Definition Action_apply (fuel : nat) (action : Action) (board : Board)
    : outcome (bool * Action * Board) :=
  match action with
  | Pour p =>
      '(r, p', board') ← PourAction_apply fuel p board ;
      Ret (r, Pour p', board')
  | AddEmptyVial =>
      '(r, board') ← AddEmptyVialAction_apply board ;
      Ret (r, AddEmptyVial, board')
  end.

Definition Action_undo (action : Action) (board : Board) : outcome Board :=
  match action with
  | Pour p => PourAction_undo p board
  | AddEmptyVial => AddEmptyVialAction_undo board
  end.

(** [Board.__init__] with the default (empty) history, on the list of vials
    as the caller holds it, shared list objects included. *)
Definition Board_of_slots (size : Z) (ss : list slot) : Board :=
  {| vial_size := size; slots := ss; _history := [] |}.

(** [Board.__init__] on a list of vials that are all different list
    objects, as list literals and [json.loads] make them. *)
Definition Board_init (size : Z) (vs : list (list Z)) : Board :=
  Board_of_slots size (fresh <$> vs).

(** [Board.apply_action] *)
Definition Board_apply_action (fuel : nat) (action : Action) (board : Board)
    : outcome Board :=
  '(r, action', board') ← Action_apply fuel action board ;
  if negb r then Ret board'
  else Ret (set_history board' (_history board' ++ [action'])).

(** [Board.undo] *)
Definition Board_undo (board : Board) : outcome Board :=
  if bool_decide (length (_history board) = 0) then Ret board
  else
    match last (_history board) with
    | None => Raise IndexError
    | Some action =>
        Action_undo action (set_history board (removelast (_history board)))
    end.

(** [Board.pour] and [Board.add_empty_vial] *)
Definition Board_pour (fuel : nat) (from_vial_index to_vial_index : Z)
    (board : Board) : outcome Board :=
  Board_apply_action fuel (Pour (PourAction_init from_vial_index to_vial_index)) board.

Definition Board_add_empty_vial (board : Board) : outcome Board :=
  Board_apply_action 0 AddEmptyVial board.

(** [Board.is_vial_empty], [Board.get_num_vials] *)
Definition Board_is_vial_empty (board : Board) (vial_index : Z) : outcome bool :=
  match vial_ref (slots board) vial_index with
  | None => Raise IndexError
  | Some r => Ret (bool_decide (length (deref (slots board) r) = 0))
  end.

Definition Board_get_num_vials (board : Board) : nat := length (slots board).

(** The inner loop of [Board.is_solved]: [false] stands for the early
    [return False]. *)
Fixpoint all_equal_to (first_elem : Z) (vial : list Z) : bool :=
  match vial with
  | [] => true
  | elem :: rest =>
      if negb (bool_decide (elem = first_elem)) then false
      else all_equal_to first_elem rest
  end.

(** The outer loop of [Board.is_solved]. *)
Fixpoint is_solved_loop (size : Z) (vs : list (list Z)) : bool :=
  match vs with
  | [] => true
  | vial :: rest =>
      if bool_decide (length vial = 0) then is_solved_loop size rest
      else if negb (bool_decide (Z.of_nat (length vial) = size)) then false
      else
        match vial with
        | [] => false
        | first_elem :: _ =>
            if all_equal_to first_elem vial then is_solved_loop size rest
            else false
        end
  end.

Definition Board_is_solved (board : Board) : bool :=
  is_solved_loop (vial_size board) (vials board).

(** ** The puzzle loader *)

(** Python floats, as far as a comparison with an integer tells them apart. *)
Inductive pyfloat : Type :=
| FNaN
| FInf (negative : bool)
| FFinite (q : Q).

(** The values [json.loads] returns.  A [JObject] is the [dict] after
    parsing: each key occurs once. *)
#[local] Unset Elimination Schemes.
Inductive json : Type :=
| JNull
| JBool (b : bool)
| JInt (z : Z)
| JFloat (f : pyfloat)
| JString (s : string)
| JArray (items : list json)
| JObject (members : list (string * json)).
#[local] Set Elimination Schemes.

(** [key in d] and [d[key]] on a [dict] *)
Fixpoint dict_get (key : string) (members : list (string * json)) : option json :=
  match members with
  | [] => None
  | (k, v) :: rest => if bool_decide (k = key) then Some v else dict_get key rest
  end.

Definition is_JString (key : string) (v : json) : bool :=
  match v with
  | JString s => bool_decide (s = key)
  | _ => false
  end.

(** [key in data] for a string [key]: a key of a [dict], an element of a
    list, a substring of a string, [TypeError] for anything else. *)
Definition py_contains (key : string) (data : json) : outcome bool :=
  match data with
  | JObject members => Ret (bool_decide (is_Some (dict_get key members)))
  | JArray items => Ret (existsb (is_JString key) items)
  | JString s => Ret (bool_decide (is_Some (String.index 0 key s)))
  | _ => Raise TypeError
  end.

(** [data[key]] for a string [key], after [key in data] *)
Definition py_getitem (key : string) (data : json) : outcome json :=
  match data with
  | JObject members =>
      match dict_get key members with
      | Some v => Ret v
      | None => Raise TypeError
      end
  | _ => Raise TypeError
  end.

(** [isinstance(v, (list, tuple))] and [isinstance(v, int)]; [bool] is a
    subclass of [int]. *)
Definition is_array (v : json) : bool :=
  match v with JArray _ => true | _ => false end.

Definition is_int (v : json) : bool :=
  match v with JInt _ | JBool _ => true | _ => false end.

(** [n > size] for a length [n] *)
Definition len_gt (n : nat) (size : json) : outcome bool :=
  match size with
  | JInt z => Ret (bool_decide (z < Z.of_nat n)%Z)
  | JBool b => Ret (bool_decide ((if b then 1 else 0) < Z.of_nat n)%Z)
  | JFloat FNaN => Ret false
  | JFloat (FInf negative) => Ret negative
  | JFloat (FFinite q) => Ret (negb (Qle_bool (inject_Z (Z.of_nat n)) q))
  | _ => Raise TypeError
  end.

Definition dq : string := String (Ascii.ascii_of_nat 34) EmptyString.

Definition msg_vial_size_required : string :=
  "Key " +:+ dq +:+ "vial_size" +:+ dq +:+ " is required".
Definition msg_vials_required : string :=
  "Key " +:+ dq +:+ "vials" +:+ dq +:+ " is required".
Definition msg_vials_array : string :=
  "Key " +:+ dq +:+ "vials" +:+ dq +:+ " must be an array".
Definition msg_vial_array : string :=
  "Every element in " +:+ dq +:+ "vials" +:+ dq +:+ " must be an array.".
Definition msg_too_many : string := "Vial contains too many units".
Definition msg_unit_int : string :=
  "Every element in every vial must be an integer.".

(** [for unit in vial: ...] *)
Fixpoint check_units (vial : list json) : outcome unit :=
  match vial with
  | [] => Ret tt
  | unit :: rest =>
      if negb (is_int unit) then Raise (ValueError msg_unit_int)
      else check_units rest
  end.

(** [for vial in vials: ...] *)
Fixpoint check_vials (size : json) (vs : list json) : outcome unit :=
  match vs with
  | [] => Ret tt
  | vial :: rest =>
      match vial with
      | JArray units =>
          too_long ← len_gt (length units) size ;
          if (too_long : bool) then Raise (ValueError msg_too_many)
          else
            _ ← check_units units ;
            check_vials size rest
      | _ => Raise (ValueError msg_vial_array)
      end
  end.

(** The arguments [load_board] passes to [Board(...)], as parsed. *)
Record puzzle : Type := mkPuzzle {
  puzzle_vial_size : json;
  puzzle_vials : list json
}.

(** [load_board] after [json.loads] *)
Definition load_board_data (data : json) : outcome puzzle :=
  has_size ← py_contains "vial_size" data ;
  if negb has_size then Raise (ValueError msg_vial_size_required)
  else
    size ← py_getitem "vial_size" data ;
    has_vials ← py_contains "vials" data ;
    if negb has_vials then Raise (ValueError msg_vials_required)
    else
      vs ← py_getitem "vials" data ;
      match vs with
      | JArray vs =>
          _ ← check_vials size vs ;
          Ret {| puzzle_vial_size := size; puzzle_vials := vs |}
      | _ => Raise (ValueError msg_vials_array)
      end.

(** [load_board]; [json_loads] stands for [json.loads], which returns a
    value or the message of the [ValueError] it raises. *)
Definition load_board (json_loads : string → json + string) (line : string)
    : outcome puzzle :=
  match json_loads line with
  | inr e => Raise (ValueError ("Invalid JSON (" +:+ e +:+ ")"))
  | inl data => load_board_data data
  end.

(** The board of the state machine for a puzzle whose capacity is an
    integer; a unit [True] or [False] compares equal to [1] or [0]. *)
Definition unit_of (v : json) : option Z :=
  match v with
  | JInt z => Some z
  | JBool b => Some (if b then 1 else 0)%Z
  | _ => None
  end.

Definition vial_of (v : json) : option (list Z) :=
  match v with JArray units => mapM unit_of units | _ => None end.

Definition Board_of_puzzle (p : puzzle) : option Board :=
  match puzzle_vial_size p with
  | JInt size => Board_init size <$> mapM vial_of (puzzle_vials p)
  | _ => None
  end.

(** * Vocabulary of the claims *)

(** ** Pours *)

(** The indices the interactive loop passes: [0 ≤ i < len(board.vials)]. *)
Definition valid_index (board : Board) (i : Z) : Prop :=
  (0 ≤ i < Z.of_nat (length (vials board)))%Z.

(** [board.vials[i] is board.vials[j]]: the two indices hold one list
    object. *)
Definition same_object (board : Board) (i j : Z) : Prop :=
  vial_ref (slots board) i = vial_ref (slots board) j.

(** The list object at index [i] is held at no other index. *)
Definition held_once (board : Board) (i : Z) : Prop :=
  ∀ j, valid_index board j → same_object board j i → j = i.

(** The vials are all different list objects, as [load_board] makes them. *)
Definition distinct_objects (board : Board) : Prop :=
  ∀ i, valid_index board i → held_once board i.

(** [applied_pour f t k]: the action object after an [apply] that moved [k]
    units. *)
Definition applied_pour (from_index to_index : Z) (k : nat) : PourAction :=
  {| _from_index := from_index; _to_index := to_index;
     _qty_moved := k; _applied := true |}.

(** The board after [k] units of colour [color] went from the top of the
    list object [from_vial], leaving [src'] there, onto the contents [dst]
    of the list object [to_vial]. *)
Definition poured (board : Board) (from_vial to_vial : nat) (src' dst : list Z)
    (k : nat) (color : Z) : Board :=
  set_slots board
    (write (write (slots board) to_vial (dst ++ replicate k color)) from_vial src').

(** The greedy rule: [k] units of [color] leave [src]; every unit moved
    found room in the destination; the loop stops at another colour, at an
    empty source, or at a full destination. *)
Definition moved_greedily (size : Z) (src dst src' : list Z) (k : nat) (color : Z)
    : Prop :=
  src = src' ++ replicate k color
  ∧ (k = 0 ∨ (Z.of_nat (length dst + k) ≤ size)%Z)
  ∧ (last src' ≠ Some color ∨ (size ≤ Z.of_nat (length dst + k))%Z).

(** ** Solved vials *)

(** A vial is solved when it is empty, or full and of one colour. *)
Definition vial_solved (size : Z) (vial : list Z) : Prop :=
  vial = [] ∨ (Z.of_nat (length vial) = size ∧ ∀ x y, x ∈ vial → y ∈ vial → x = y).

(** ** The units on the board *)

(** All units of the board, vial by vial, as a list read up to
    permutation. *)
Definition all_units (board : Board) : list Z := concat (vials board).

(** [units_preserved fi ti board board']: the two boards hold the same
    multiset of units and the same number of vials, and differ at most in
    the vials at positions [fi] and [ti]. *)
Definition units_preserved (fi ti : nat) (board board' : Board) : Prop :=
  all_units board' ≡ₚ all_units board
  ∧ length (vials board') = length (vials board)
  ∧ ∀ i, i ≠ fi → i ≠ ti → vials board' !! i = vials board !! i.

(** ** Sequences of calls and the history *)

(** One call of a mutating public operation other than [undo]. *)
Inductive call : Type :=
| CallPour (from_vial_index to_vial_index : Z)
| CallAddEmptyVial.

Definition Board_call (fuel : nat) (c : call) (board : Board) : outcome Board :=
  match c with
  | CallPour f t => Board_pour fuel f t board
  | CallAddEmptyVial => Board_add_empty_vial board
  end.

(** A sequence of calls, one after the other on the same board object. *)
Fixpoint run_calls (fuel : nat) (calls : list call) (board : Board) : outcome Board :=
  match calls with
  | [] => Ret board
  | c :: calls' =>
      board' ← Board_call fuel c board ;
      run_calls fuel calls' board'
  end.

(** [while len(board._history) > 0: board.undo()] *)
Fixpoint undo_until_empty (fuel : nat) (board : Board) : outcome Board :=
  if bool_decide (length (_history board) = 0) then Ret board
  else
    match fuel with
    | 0 => OutOfFuel
    | S fuel' =>
        board' ← Board_undo board ;
        undo_until_empty fuel' board'
    end.

(** [rewinds board' board]: calls of [Board.undo], each on a non-empty
    history and each removing its last entry, lead from [board'] to [board]. *)
Inductive rewinds : Board → Board → Prop :=
| rewinds_refl board : rewinds board board
| rewinds_step board' board'' board action :
    _history board' = _history board'' ++ [action] →
    Board_undo board' = Ret board'' →
    rewinds board'' board →
    rewinds board' board.

(** Calls whose pours name two valid, different vials; [n] is the number
    of vials, which [add_empty_vial] increases. *)
Fixpoint calls_valid (n : nat) (calls : list call) : Prop :=
  match calls with
  | [] => True
  | CallPour f t :: rest =>
      (0 ≤ f < Z.of_nat n)%Z ∧ (0 ≤ t < Z.of_nat n)%Z ∧ f ≠ t ∧ calls_valid n rest
  | CallAddEmptyVial :: rest => calls_valid (S n) rest
  end.

(** ** The capacity invariant *)

Definition capacity_ok (board : Board) : Prop :=
  Forall (λ vial, (Z.of_nat (length vial) ≤ vial_size board)%Z) (vials board).

(** The boards that returning calls of the public mutating operations
    produce from [board0]. *)
Inductive reachable (board0 : Board) : Board → Prop :=
| reachable_init : reachable board0 board0
| reachable_call fuel c board board' :
    reachable board0 board → Board_call fuel c board = Ret board' →
    reachable board0 board'
| reachable_undo board board' :
    reachable board0 board → Board_undo board = Ret board' →
    reachable board0 board'.

(** [sound board]: every entry of the history can be undone in turn, each
    time leading to a board within capacity. *)
Inductive sound : Board → Prop :=
| sound_nil board : _history board = [] → sound board
| sound_snoc board board'' action :
    _history board = _history board'' ++ [action] →
    Board_undo board = Ret board'' →
    capacity_ok board'' → vial_size board'' = vial_size board →
    sound board'' →
    sound board.

(** ** Accepted puzzles *)

(** [vial_size] is a number for the comparison [len(vial) > vial_size]. *)
Definition numeric (size : json) : bool :=
  match size with JInt _ | JBool _ | JFloat _ => true | _ => false end.

(** The vials that pass the loop of [load_board]: arrays that [len(vial) >
    vial_size] does not find too long and whose units are all [int]s. *)
Definition good_vial (size : json) (vial : json) : Prop :=
  ∃ units, vial = JArray units
           ∧ len_gt (length units) size = Ret false
           ∧ Forall (λ unit, is_int unit = true) units.

(** * More of the code *)

(** ** [Board.get_max_color] *)

(** The inner loop of [Board.get_max_color], [ret = max(ret, obj)]. *)
Fixpoint max_color_vial (ret : Z) (vial : list Z) : Z :=
  match vial with
  | [] => ret
  | obj :: rest => max_color_vial (Z.max ret obj) rest
  end.

(** The outer loop of [Board.get_max_color]. *)
Fixpoint max_color_loop (ret : Z) (vs : list (list Z)) : Z :=
  match vs with
  | [] => ret
  | vial :: rest => max_color_loop (max_color_vial ret vial) rest
  end.

Definition Board_get_max_color (board : Board) : Z :=
  max_color_loop 0 (vials board).

(** ** Histories that the board recorded itself *)

(** [retraces P board]: the entries of the history can be undone one after
    the other, and every board met on the way back satisfies [P]. *)
Inductive retraces (P : Board → Prop) : Board → Prop :=
| retraces_nil board : _history board = [] → retraces P board
| retraces_snoc board board'' action :
    _history board = _history board'' ++ [action] →
    Board_undo board = Ret board'' →
    P board'' → retraces P board'' →
    retraces P board.

(** The entries of a history that are [AddEmptyVialAction]s. *)
Definition is_add (action : Action) : bool :=
  match action with AddEmptyVial => true | Pour _ => false end.

Definition added_vials (board : Board) : nat :=
  length (filter (λ action, is_add action = true) (_history board)).

(** ** Drawing *)

(** What is printed is kept as the list of the strings of the [print]
    calls, each with its [end]; the stream is their concatenation. *)

Definition esc : string := String (Ascii.ascii_of_nat 27) EmptyString.
Definition newline : string := String (Ascii.ascii_of_nat 10) EmptyString.

Definition _ANSI_CLEAR : string := esc +:+ "[2J".
Definition _ANSI_GO_HOME : string := esc +:+ "[H".
Definition _ANSI_INVERT : string := esc +:+ "[7m".
Definition _ANSI_NORMAL : string := esc +:+ "[0m".

Definition _ANSI_FG_COLORS : list string :=
  [ esc +:+ "[31m"; esc +:+ "[32m"; esc +:+ "[33m"; esc +:+ "[34m";
    esc +:+ "[35m"; esc +:+ "[36m"; esc +:+ "[91m"; esc +:+ "[92m";
    esc +:+ "[93m"; esc +:+ "[94m"; esc +:+ "[95m"; esc +:+ "[96m" ].

Definition _SYMBOLS : string :=
  "abcdefghijklmnopqrstuvwxyzABCDEFGHIJKLMNOPQRSTUVWXYZ0123456789".

(** [t[i]] on a tuple and [s[i]] on a string *)
Definition tuple_get {A : Type} (t : list A) (i : Z) : outcome A :=
  match norm_index (length t) i with
  | Some n => match t !! n with Some x => Ret x | None => Raise IndexError end
  | None => Raise IndexError
  end.

Definition str_get (s : string) (i : Z) : outcome string :=
  match norm_index (String.length s) i with
  | Some n =>
      match String.get n s with
      | Some c => Ret (String c EmptyString)
      | None => Raise IndexError
      end
  | None => Raise IndexError
  end.

(** [s.rjust(width)] and [' ' * n] *)
Definition spaces (n : nat) : string :=
  string_of_list_ascii (replicate n (Ascii.ascii_of_nat 32)).

Definition rjust (width : nat) (s : string) : string :=
  spaces (width - String.length s) +:+ s.

(** The body of the loop of [draw_vial] for a unit that is not [None]:
    four [print] calls. *)
Definition draw_unit (unit : Z) : outcome (list string) :=
  ansi_fg ← tuple_get _ANSI_FG_COLORS (unit `mod` Z.of_nat (length _ANSI_FG_COLORS))%Z ;
  symbol ← str_get _SYMBOLS (unit `mod` Z.of_nat (String.length _SYMBOLS))%Z ;
  Ret [_ANSI_INVERT; ansi_fg; " " +:+ symbol +:+ " "; _ANSI_NORMAL].

(** The loop of [draw_vial] over the remaining indices. *)
Fixpoint draw_cells (indices : list nat) (vial : list Z) : outcome (list string) :=
  match indices with
  | [] => Ret []
  | index :: rest =>
      cell ← match vial !! index with
             | Some unit => draw_unit unit
             | None => Ret [spaces 3]
             end ;
      more ← draw_cells rest vial ;
      Ret (cell ++ more)
  end.

(** [draw_vial]; [range(vial_size)] is empty for a [vial_size] that is not
    positive. *)
Definition draw_vial (vial_index : Z) (vial : list Z) (size : Z)
    : outcome (list string) :=
  let display_index := rjust 2 (pretty (vial_index + 1)%Z) in
  cells ← draw_cells (seq 0 (Z.to_nat size)) vial ;
  Ret ((display_index +:+ ".") :: cells).

(** ** The generator, [vialsort_generator.py] *)

(** The elements of [range(start, stop, step)] for a [step] that is not
    zero, and [range] itself, which raises [ValueError] for a zero step. *)
Definition range_list (start stop step : Z) : list Z :=
  let len := if bool_decide (0 < step)%Z
             then Z.to_nat ((stop - start + step - 1) `div` step)
             else Z.to_nat ((start - stop - step - 1) `div` (- step)) in
  (λ k, start + Z.of_nat k * step)%Z <$> seq 0 len.

Definition py_range (start stop step : Z) : outcome (list Z) :=
  if bool_decide (step = 0%Z)
  then Raise (ValueError "range() arg 3 must not be zero")
  else Ret (range_list start stop step).

(** [l[i:j]]: both bounds are taken from the end when negative and clamped
    to the list. *)
Definition slice_bound (n : nat) (i : Z) : nat :=
  if bool_decide (i < 0)%Z then Z.to_nat (i + Z.of_nat n) else Z.to_nat i `min` n.

Definition py_slice {A : Type} (l : list A) (i j : Z) : list A :=
  let lo := slice_bound (length l) i in
  let hi := slice_bound (length l) j in
  take (hi - lo) (drop lo l).

(** The first loop of [generate_random_vials]:
    [items_to_distribute.extend([color] * vial_size)] for each colour. *)
Fixpoint fill_items (colors : list Z) (size : Z) (items : list Z) : list Z :=
  match colors with
  | [] => items
  | color :: rest => fill_items rest size (items ++ replicate (Z.to_nat size) color)
  end.

(** The second loop: [ret.append(items_to_distribute[i:i+vial_size])]. *)
Fixpoint chunk_items (starts : list Z) (size : Z) (items : list Z)
    (ret : list (list Z)) : list (list Z) :=
  match starts with
  | [] => ret
  | i :: rest => chunk_items rest size items (ret ++ [py_slice items i (i + size)])
  end.

(** [generate_random_vials]; [shuffle] stands for [rand.shuffle], which
    rearranges the list in place. *)
Definition generate_random_vials (shuffle : list Z → list Z)
    (num_vials size : Z) : outcome (list (list Z)) :=
  let items := fill_items (range_list 0 num_vials 1) size [] in
  let items := shuffle items in
  starts ← py_range 0 (num_vials * size) size ;
  Ret (chunk_items starts size items []).

(** What [main] of the generator does: an error message on [stderr] with
    exit code 1, or the puzzle that [json.dumps] prints, with exit code 0. *)
Inductive generated : Type :=
| GenError (message : string)
| GenPuzzle (data : json).

Definition json_of_vials (vs : list (list Z)) : json :=
  JArray ((λ vial, JArray (JInt <$> vial)) <$> vs).

(** [main] of the generator, after [argparse]. *)
Definition generator_main (shuffle : list Z → list Z)
    (num_colors num_empty_vials size : Z) : outcome generated :=
  if bool_decide (num_colors < 0)%Z
  then Ret (GenError "Cannot have a negative amount of colors.")
  else if bool_decide (num_empty_vials < 0)%Z
  then Ret (GenError "Cannot have a negative amount of empty vials.")
  else if bool_decide (size < 0)%Z
  then Ret (GenError "Cannot have a negative vial size.")
  else
    vs ← generate_random_vials shuffle num_colors size ;
    let vs := vs ++ ((λ _, []) <$> range_list 0 num_empty_vials 1) in
    Ret (GenPuzzle (JObject [("vial_size", JInt size); ("vials", json_of_vials vs)])).

(** [size] units of each of the colours [0], ..., [n - 1]. *)
Definition colour_units (n size : nat) : list Z :=
  concat ((λ c, replicate size (Z.of_nat c)) <$> seq 0 n).

(** ** The interactive loop, [play_board] *)

(** The variables of [play_board] that live across iterations. *)
Record play_state : Type := mkPlay {
  board_of : Board;
  selected_vial_index : option Z;
  comment : option string;
  playing : bool
}.

Definition msg_no_such_vial : string := "That vial does not exist".
Definition msg_vial_empty : string := "That vial is empty".
Definition msg_help : string :=
  "help: Show this message" +:+ newline +:+ "u: Undo last action" +:+ newline
  +:+ "v: Add an empty vial".
Definition msg_nothing : string := "Nothing happens".

(** The loop that draws the vials, with its line breaks. *)
Fixpoint render_vials (board : Board) (indices : list nat) (pos_x : Z)
    : outcome (list string) :=
  match indices with
  | [] => Ret []
  | vial_index :: rest =>
      vial ← tuple_get (vials board) (Z.of_nat vial_index) ;
      drawn ← draw_vial (Z.of_nat vial_index) vial (vial_size board) ;
      let vial_draw_size := (2 + 1 + 3 * vial_size board + 4)%Z in
      let pos_x := (pos_x + vial_draw_size)%Z in
      let wrap := bool_decide (80 ≤ pos_x + vial_draw_size)%Z in
      more ← render_vials board rest (if wrap then 0%Z else pos_x) ;
      Ret (drawn ++ [spaces 4] ++ (if wrap then [newline; newline] else []) ++ more)
  end.

(** Everything one iteration prints before it looks at [is_solved]. *)
Definition render_board (board : Board) : outcome (list string) :=
  drawn ← render_vials board (seq 0 (length (vials board))) 0 ;
  Ret ([_ANSI_CLEAR; _ANSI_GO_HOME] ++ drawn ++ [newline; newline]).

(** The prompt of an iteration on a board that is not solved. *)
Definition render_prompt (st : play_state) : list string :=
  (match selected_vial_index st with
   | None =>
       [ "Select a vial by typing the number to its left." +:+ newline;
         "Or, enter " +:+ dq +:+ "help" +:+ dq +:+ " for more commands." +:+ newline ]
   | Some s =>
       [ "Selected vial " +:+ pretty (s + 1)%Z
         +:+ ". Now, select a destination vial." +:+ newline;
         "Or, enter " +:+ dq +:+ "c" +:+ dq +:+ " to cancel." +:+ newline ]
   end)
  ++ (match comment st with
      | None => []
      | Some text => [newline; text +:+ newline]
      end)
  ++ ["> "].

Section play.
(** [py_int] stands for [int(user_line)], [None] for its [ValueError];
    [py_lower] stands for [user_line.lower()]. *)
Variable py_int : string → option Z.
Variable py_lower : string → string.

(** The commands that follow the [try] block. *)
Definition play_keys (st : play_state) (user_line : string) : outcome play_state :=
  if bool_decide (user_line = "c") || bool_decide (user_line = "C") then
    Ret (mkPlay (board_of st) None (comment st) (playing st))
  else if bool_decide (user_line = "v") || bool_decide (user_line = "V") then
    board ← Board_add_empty_vial (board_of st) ;
    Ret (mkPlay board (selected_vial_index st) (comment st) (playing st))
  else
    let st := if bool_decide (py_lower user_line = "help")
              then mkPlay (board_of st) (selected_vial_index st)
                     (Some msg_help) (playing st)
              else st in
    if bool_decide (user_line = "u") || bool_decide (user_line = "U")
       || bool_decide (py_lower user_line = "undo") then
      board ← Board_undo (board_of st) ;
      Ret (mkPlay board (selected_vial_index st) (comment st) (playing st))
    else if bool_decide (py_lower user_line = "xyzzy") then
      Ret (mkPlay (board_of st) (selected_vial_index st) (Some msg_nothing)
             (playing st))
    else Ret st.

(** The body of the [try] block: [inl] is a [continue], [inr] falls through
    to the commands. *)
Definition play_try (fuel : nat) (st : play_state) (user_line : string)
    : outcome (play_state + play_state) :=
  match py_int user_line with
  | None => Ret (inr st)
  | Some n =>
      let vial_index := (n - 1)%Z in
      if bool_decide (vial_index < 0)%Z
         || bool_decide (Z.of_nat (Board_get_num_vials (board_of st)) ≤ vial_index)%Z
      then Ret (inl (mkPlay (board_of st) (selected_vial_index st)
                       (Some msg_no_such_vial) (playing st)))
      else
        match selected_vial_index st with
        | None =>
            empty ← Board_is_vial_empty (board_of st) vial_index ;
            if (empty : bool)
            then Ret (inl (mkPlay (board_of st) None (Some msg_vial_empty)
                             (playing st)))
            else Ret (inr (mkPlay (board_of st) (Some vial_index) (comment st)
                             (playing st)))
        | Some selected =>
            board ← (if bool_decide (selected ≠ vial_index)
                      then Board_pour fuel selected vial_index (board_of st)
                      else Ret (board_of st)) ;
            Ret (inr (mkPlay board None (comment st) (playing st)))
        end
  end.

(** [try: ... except ValueError: pass].  The [ValueError] of [int] is
    [py_int]'s [None]; one raised later in the block would be passed over
    with the variables as they were. *)
Definition play_number (fuel : nat) (st : play_state) (user_line : string)
    : outcome (play_state + play_state) :=
  match play_try fuel st user_line with
  | Raise (ValueError _) => Ret (inr st)
  | r => r
  end.

(** An iteration from [input()] on; [user_line] is what
    [input().strip()] returned, [comment] has just been reset. *)
Definition play_command (fuel : nat) (st : play_state) (user_line : string)
    : outcome play_state :=
  let st := mkPlay (board_of st) (selected_vial_index st) None (playing st) in
  if bool_decide (String.length user_line = 0) then Ret st
  else
    r ← play_number fuel st user_line ;
    match r with
    | inl st' => Ret st'
    | inr st' => play_keys st' user_line
    end.

(** [play_board] on the lines that [input()] returns one after the other:
    the state and the output once the board is solved, or once the lines
    are used up and the loop waits at [input()]. *)
Fixpoint play_loop (fuel : nat) (lines : list string) (st : play_state)
    : outcome (play_state * list string) :=
  drawn ← render_board (board_of st) ;
  if Board_is_solved (board_of st) then
    Ret (mkPlay (board_of st) (selected_vial_index st) (comment st) false,
         drawn ++ ["Congratulations, you won!" +:+ newline])
  else
    let out := drawn ++ render_prompt st in
    match lines with
    | [] =>
        Ret (mkPlay (board_of st) (selected_vial_index st) None (playing st), out)
    | user_line :: rest =>
        st' ← play_command fuel st user_line ;
        '(st'', more) ← play_loop fuel rest st' ;
        Ret (st'', out ++ more)
    end.

Definition play_board (fuel : nat) (board : Board) (lines : list string)
    : outcome (play_state * list string) :=
  play_loop fuel lines (mkPlay board None None true).
End play.

(** The selection names a vial that is no longer there, and [user_line]
    is the number of a vial that is. *)
Definition stale_pour (py_int : string → option Z) (st : play_state)
    (user_line : string) : Prop :=
  user_line ≠ ""
  ∧ ∃ selected n,
      selected_vial_index st = Some selected
      ∧ py_int user_line = Some n
      ∧ (0 ≤ n - 1 < Z.of_nat (Board_get_num_vials (board_of st)))%Z
      ∧ (Z.of_nat (Board_get_num_vials (board_of st)) ≤ selected)%Z.

(** [user_line] is one of the spellings of the undo command. *)
Definition is_undo (py_lower : string → string) (user_line : string) : Prop :=
  user_line = "u" ∨ user_line = "U" ∨ py_lower user_line = "undo".

(** The selection, if any, is not negative. *)
Definition selection_nonneg (st : play_state) : Prop :=
  ∀ selected, selected_vial_index st = Some selected → (0 ≤ selected)%Z.

(** The selection, if any, names a vial of the board. *)
Definition selection_valid (st : play_state) : Prop :=
  ∀ selected, selected_vial_index st = Some selected →
    valid_index (board_of st) selected.

(** [int] on the lines that are one decimal digit, for the examples. *)
Definition int_of_digit (user_line : string) : option Z :=
  match user_line with
  | String c EmptyString =>
      let n := Ascii.nat_of_ascii c in
      if bool_decide (48 ≤ n ≤ 57) then Some (Z.of_nat (n - 48)) else None
  | _ => None
  end.

(** * Proofs *)

(** ** Scenarios of the specification, run on the model *)

Example scenario_pour_0_2 :
  Board_pour 5 0 2 (Board_init 4 [[1; 1]; [1]; []]%Z)
  = Ret (mkBoard 4 (fresh <$> [[]; [1]; [1; 1]]%Z) [Pour (mkPourAction 0 2 2 true)]).
Proof. reflexivity. Qed.

Example scenario_pour_1_2 :
  Board_is_solved <$>
    run_calls 5 [CallPour 0 2; CallPour 1 2] (Board_init 4 [[1; 1]; [1]; []]%Z)
  = Ret false
  ∧ vials <$>
      run_calls 5 [CallPour 0 2; CallPour 1 2] (Board_init 4 [[1; 1]; [1]; []]%Z)
    = Ret [[]; []; [1; 1; 1]]%Z.
Proof. by split. Qed.

Example scenario_solved : Board_is_solved (Board_init 3 [[5; 5; 5]]%Z) = true.
Proof. reflexivity. Qed.

Example scenario_full_destination :
  PourAction_apply 5 (PourAction_init 0 1) (Board_init 2 [[1]; [1; 1]]%Z)
  = Ret (false, applied_pour 0 1 0, Board_init 2 [[1]; [1; 1]]%Z).
Proof. reflexivity. Qed.

(** The statements below are about action objects as [Board.pour] makes
    them: constructed, then applied once.  [apply] never resets
    [_qty_moved], so a second [apply] of the same object starts from the
    recorded quantity and reports [True] even when it moves nothing. *)
Example second_apply_of_one_object :
  PourAction_apply 5 (applied_pour 0 1 1) (Board_init 1 [[1]; [1]]%Z)
  = Ret (true, applied_pour 0 1 1, Board_init 1 [[1]; [1]]%Z).
Proof. reflexivity. Qed.

Example scenario_add_undo :
  Board_get_num_vials <$>
    (Board_add_empty_vial (Board_init 4 [[1; 1]; [1]; []]%Z) ≫= Board_undo)
  = Ret 3.
Proof. reflexivity. Qed.

(** A board made from [a = [1]] and [v = []] as [Board(4, [a, v, v])]: the
    indices 1 and 2 hold one list object, and a pour into index 1 shows at
    index 2 as well. *)
Example scenario_shared_vial :
  vials (Board_of_slots 4 [fresh [1%Z]; fresh []; shared 1]) = [[1%Z]; []; []]
  ∧ vials <$> Board_pour 5 0 1 (Board_of_slots 4 [fresh [1%Z]; fresh []; shared 1])
    = Ret [[]; [1%Z]; [1%Z]].
Proof. by split. Qed.

(** ** The list objects and the list of vials *)

Section store.
Implicit Types (ss : list slot) (bs : list (option nat)).
Implicit Types (v src dst : list Z) (r i j : nat).

Lemma length_write ss r v : length (write ss r v) = length ss.
Proof. apply length_alter. Qed.

Lemma length_objects ss : length (objects ss) = length ss.
Proof. apply length_fmap. Qed.

Lemma objects_lookup_lt ss r v : objects ss !! r = Some v → r < length ss.
Proof. intros H. rewrite <- length_objects. by eapply lookup_lt_Some. Qed.

(** A write changes the contents of one list object, and at no index the
    object that is held there. *)
Lemma backs_write ss r v : back <$> write ss r v = back <$> ss.
Proof.
  revert r. induction ss as [|s ss IH]; intros [|r]; simpl; try done.
  f_equal. apply IH.
Qed.

Lemma objects_write ss r v : objects (write ss r v) = <[r := v]> (objects ss).
Proof.
  revert r. induction ss as [|s ss IH]; intros [|r]; simpl; try done.
  f_equal. apply IH.
Qed.

Lemma root_write ss r v i : root (write ss r v) i = root ss i.
Proof. unfold root. by rewrite backs_write. Qed.

Lemma write_id ss r v : objects ss !! r = Some v → write ss r v = ss.
Proof.
  revert r. induction ss as [|s ss IH]; intros [|r] H; simpl in *; try done.
  - injection H as <-. by destruct s.
  - f_equal. by apply IH.
Qed.

Lemma write_write_eq ss r v v' : write (write ss r v) r v' = write ss r v'.
Proof.
  unfold write. rewrite list_alter_alter_eq. by apply list_alter_ext.
Qed.

Lemma write_write_ne ss r r' v v' :
  r ≠ r' → write (write ss r' v') r v = write (write ss r v) r' v'.
Proof. intros Hne. unfold write. by apply list_alter_alter_ne. Qed.

Lemma lookup_write_eq ss r v : r < length ss → objects (write ss r v) !! r = Some v.
Proof.
  intros Hr. rewrite objects_write. apply list_lookup_insert_eq.
  by rewrite length_objects.
Qed.

Lemma lookup_write_ne ss r r' v :
  r ≠ r' → objects (write ss r v) !! r' = objects ss !! r'.
Proof. intros Hne. rewrite objects_write. by apply list_lookup_insert_ne. Qed.

Lemma deref_lookup ss r v : objects ss !! r = Some v → deref ss r = v.
Proof. unfold deref. by intros ->. Qed.

Lemma lookup_deref ss r : r < length ss → objects ss !! r = Some (deref ss r).
Proof.
  intros Hr. unfold deref.
  destruct (lookup_lt_is_Some_2 (objects ss) r) as [v ->]; [|done].
  by rewrite length_objects.
Qed.

Lemma vial_append_lookup ss r v x :
  objects ss !! r = Some v → vial_append ss r x = write ss r (v ++ [x]).
Proof. intros H. unfold vial_append. by rewrite (deref_lookup _ _ _ H). Qed.

Lemma vial_pop_lookup ss r v x :
  objects ss !! r = Some (v ++ [x]) → vial_pop ss r = write ss r v.
Proof.
  intros H. unfold vial_pop.
  by rewrite (deref_lookup _ _ _ H), removelast_last.
Qed.

(** Appending the top of an object to the object itself and popping it
    again leaves the store as it was. *)
Lemma vial_pop_append_same ss r v x :
  objects ss !! r = Some v → vial_pop (vial_append ss r x) r = ss.
Proof.
  intros H. rewrite (vial_append_lookup _ _ _ _ H).
  pose proof (objects_lookup_lt _ _ _ H).
  rewrite (vial_pop_lookup _ _ v x) by (by apply lookup_write_eq).
  rewrite write_write_eq. by apply write_id.
Qed.

Lemma norm_index_valid n (i : Z) :
  (0 ≤ i < Z.of_nat n)%Z → norm_index n i = Some (Z.to_nat i).
Proof.
  intros [H0 H1]. unfold norm_index.
  rewrite bool_decide_eq_true_2 by done. by rewrite bool_decide_eq_true_2.
Qed.

Lemma norm_index_lt n (i : Z) r : norm_index n i = Some r → r < n.
Proof.
  unfold norm_index. repeat case_bool_decide; intros [= <-]; lia.
Qed.

(** The name of a list object is the first index that holds it. *)
Lemma first_index_le bs i : first_index bs i ≤ i.
Proof.
  unfold first_index. destruct (bs !! i) as [[j|]|]; try done.
  case_bool_decide; [|done]. destruct (bs !! j) as [[?|]|]; lia.
Qed.

Lemma first_index_idem bs i : first_index bs (first_index bs i) = first_index bs i.
Proof.
  unfold first_index at 2 3. destruct (bs !! i) as [[j|]|] eqn:Hi; try done.
  - case_bool_decide as Hlt.
    + destruct (bs !! j) as [[?|]|] eqn:Hj; unfold first_index.
      * by rewrite Hi, bool_decide_eq_true_2, Hj.
      * by rewrite Hj.
      * by rewrite Hi, bool_decide_eq_true_2, Hj.
    + unfold first_index. by rewrite Hi, bool_decide_eq_false_2.
  - unfold first_index. by rewrite Hi.
  - unfold first_index. by rewrite Hi.
Qed.

Lemma root_le ss i : root ss i ≤ i.
Proof. apply first_index_le. Qed.

Lemma root_lt ss i : i < length ss → root ss i < length ss.
Proof. pose proof (root_le ss i). lia. Qed.

Lemma root_root ss i : root ss (root ss i) = root ss i.
Proof. apply first_index_idem. Qed.

Lemma root_app_l ss ss' i : i < length ss → root (ss ++ ss') i = root ss i.
Proof.
  intros Hi. unfold root, first_index. rewrite fmap_app.
  rewrite lookup_app_l by (by rewrite length_fmap).
  destruct ((back <$> ss) !! i) as [[j|]|]; try done.
  case_bool_decide; [|done].
  rewrite lookup_app_l by (rewrite length_fmap; lia). done.
Qed.

Lemma root_fresh_end ss v : root (ss ++ [fresh v]) (length ss) = length ss.
Proof.
  unfold root, first_index. rewrite fmap_app.
  rewrite lookup_app_r by (by rewrite length_fmap).
  by rewrite length_fmap, Nat.sub_diag.
Qed.

Lemma root_fresh (vs : list (list Z)) i : root (fresh <$> vs) i = i.
Proof.
  unfold root, first_index. rewrite <- list_fmap_compose, list_lookup_fmap.
  by destruct (vs !! i).
Qed.

(** [vials[index]] *)
Lemma vial_ref_valid ss (index : Z) :
  (0 ≤ index < Z.of_nat (length ss))%Z →
  vial_ref ss index = Some (root ss (Z.to_nat index)).
Proof. intros H. unfold vial_ref. by rewrite norm_index_valid. Qed.

Lemma vial_ref_Some ss (index : Z) r :
  vial_ref ss index = Some r →
  ∃ i, norm_index (length ss) index = Some i ∧ i < length ss
       ∧ r = root ss i ∧ r < length ss.
Proof.
  unfold vial_ref. destruct (norm_index (length ss) index) as [i|] eqn:Hi; [|done].
  intros [= <-]. exists i. pose proof (norm_index_lt _ _ _ Hi).
  split_and!; try done. by apply root_lt.
Qed.

Lemma vial_ref_write ss r v (index : Z) :
  vial_ref (write ss r v) index = vial_ref ss index.
Proof.
  unfold vial_ref. rewrite length_write.
  destruct (norm_index (length ss) index); simpl; [|done].
  by rewrite root_write.
Qed.

(** What is read index by index. *)
Lemma length_view ss : length (view ss) = length ss.
Proof. unfold view. by rewrite length_fmap, length_seq. Qed.

Lemma view_lookup ss i : i < length ss → view ss !! i = Some (vial_at ss i).
Proof.
  intros Hi. unfold view. by rewrite list_lookup_fmap, lookup_seq_lt.
Qed.

Lemma view_lookup_Some ss i v :
  view ss !! i = Some v → i < length ss ∧ v = vial_at ss i.
Proof.
  intros H. pose proof (lookup_lt_Some _ _ _ H) as Hi.
  rewrite length_view in Hi. rewrite (view_lookup _ _ Hi) in H.
  by injection H as <-.
Qed.

Lemma vial_at_objects ss i :
  i < length ss → objects ss !! root ss i = Some (vial_at ss i).
Proof. intros Hi. apply lookup_deref. by apply root_lt. Qed.

(** After a write, an index shows the new contents when it holds the
    object written, and what it showed before when it does not. *)
Lemma vial_at_write ss r v i :
  i < length ss →
  vial_at (write ss r v) i = if bool_decide (root ss i = r) then v else vial_at ss i.
Proof.
  intros Hi. unfold vial_at. rewrite root_write. case_bool_decide as Hr.
  - apply deref_lookup. subst r. apply lookup_write_eq. by apply root_lt.
  - unfold deref. by rewrite lookup_write_ne.
Qed.

Lemma Forall_view_write (P : list Z → Prop) ss r v :
  Forall P (view ss) → P v → Forall P (view (write ss r v)).
Proof.
  intros Hall Hv. apply Forall_lookup. intros i w Hw.
  apply view_lookup_Some in Hw as [Hi ->]. rewrite length_write in Hi.
  rewrite vial_at_write by done. case_bool_decide; [done|].
  eapply Forall_lookup_1; [exact Hall|]. by apply view_lookup.
Qed.

(** A write to an object that one index alone holds is an update of the
    list at that index. *)
Lemma view_write_once ss r v :
  r < length ss → (∀ j, j < length ss → root ss j = r → j = r) → root ss r = r →
  view (write ss r v) = <[r := v]> (view ss).
Proof.
  intros Hr Honce Hroot. apply list_eq. intros i.
  destruct (decide (i < length ss)) as [Hi|Hi].
  - rewrite view_lookup by (by rewrite length_write).
    rewrite vial_at_write by done.
    destruct (decide (i = r)) as [->|Hne].
    + rewrite bool_decide_eq_true_2 by done.
      symmetry. apply list_lookup_insert_eq. by rewrite length_view.
    + rewrite bool_decide_eq_false_2 by (intros H; by apply Hne, Honce).
      rewrite list_lookup_insert_ne by done. symmetry. by apply view_lookup.
  - rewrite !lookup_ge_None_2; [done|..].
    + rewrite length_insert, length_view. lia.
    + rewrite length_view, length_write. lia.
Qed.

Lemma view_app_fresh ss v : view (ss ++ [fresh v]) = view ss ++ [v].
Proof.
  unfold view. rewrite length_app. simpl. rewrite Nat.add_1_r, seq_S, fmap_app.
  simpl. f_equal.
  - apply list_fmap_ext. intros k i Hi. apply lookup_seq in Hi as [-> Hi].
    simpl. unfold vial_at. rewrite root_app_l by done.
    unfold deref, objects. rewrite fmap_app, lookup_app_l; [done|].
    rewrite length_fmap. by apply root_lt.
  - f_equal. unfold vial_at. rewrite root_fresh_end.
    unfold deref, objects. rewrite fmap_app, lookup_app_r by (by rewrite length_fmap).
    by rewrite length_fmap, Nat.sub_diag.
Qed.

Lemma view_fresh (vs : list (list Z)) : view (fresh <$> vs) = vs.
Proof.
  apply list_eq. intros i. destruct (decide (i < length vs)) as [Hi|Hi].
  - rewrite view_lookup by (by rewrite length_fmap).
    unfold vial_at. rewrite root_fresh. unfold deref, objects.
    rewrite <- list_fmap_compose, list_lookup_fmap.
    destruct (lookup_lt_is_Some_2 vs i Hi) as [v ->]. done.
  - rewrite !lookup_ge_None_2; [done | lia |].
    rewrite length_view, length_fmap. lia.
Qed.
End store.

(** ** The pour loop *)

Section pour_loop.
Implicit Types (ss : list slot) (src dst : list Z) (k q fuel : nat).
Variables (color size : Z) (from_vial to_vial : nat).

(** More fuel does not change a result. *)
Lemma pour_loop_mono fuel fuel' ss q res :
  pour_loop fuel color size from_vial to_vial ss q = Ret res →
  fuel ≤ fuel' →
  pour_loop fuel' color size from_vial to_vial ss q = Ret res.
Proof.
  revert fuel' ss q. induction fuel as [|fuel IH]; intros fuel' ss q H Hle.
  - discriminate.
  - destruct fuel' as [|fuel']; [lia|]. simpl in *.
    destruct (_ && _); [|done].
    destruct (last _); [|done]. apply IH; [done | lia].
Qed.

(** One pour between two different list objects: the loop stops within
    [length src] iterations, having moved the [k] topmost units, all of the
    colour [color], for the greatest [k] that the capacity allows. *)
Lemma pour_loop_distinct fuel ss src dst q :
  from_vial ≠ to_vial →
  objects ss !! from_vial = Some src → objects ss !! to_vial = Some dst →
  length src < fuel →
  ∃ k src',
    pour_loop fuel color size from_vial to_vial ss q
    = Ret (write (write ss to_vial (dst ++ replicate k color)) from_vial src', q + k)
    ∧ src = src' ++ replicate k color
    ∧ (k = 0 ∨ (Z.of_nat (length dst + k) ≤ size)%Z)
    ∧ (last src' ≠ Some color ∨ (size ≤ Z.of_nat (length dst + k))%Z).
Proof.
  intros Hne. revert ss src dst q.
  induction fuel as [|fuel IH]; intros ss src dst q Hsrc Hdst Hfuel; [lia|].
  simpl. rewrite (deref_lookup _ _ _ Hsrc), (deref_lookup _ _ _ Hdst).
  assert (Hstay : write (write ss to_vial (dst ++ replicate 0 color)) from_vial src
                  = ss).
  { simpl. rewrite app_nil_r. rewrite (write_id _ _ _ Hdst). by apply write_id. }
  destruct (bool_decide (0 < length src)) eqn:E1; simpl.
  2:{ exists 0, src. rewrite Hstay. simpl. rewrite !app_nil_r, Nat.add_0_r.
      apply bool_decide_eq_false in E1. destruct src; [|simpl in E1; lia].
      repeat split; auto. }
  destruct (bool_decide (last src = Some color)) eqn:E2; simpl.
  2:{ exists 0, src. rewrite Hstay. simpl. rewrite !app_nil_r, Nat.add_0_r.
      apply bool_decide_eq_false in E2. repeat split; auto. }
  destruct (bool_decide (Z.of_nat (length dst) < size)%Z) eqn:E3; simpl.
  2:{ exists 0, src. rewrite Hstay. simpl. rewrite !app_nil_r, Nat.add_0_r.
      apply bool_decide_eq_false in E3. repeat split; auto. right. lia. }
  clear Hstay. apply bool_decide_eq_true in E2, E3.
  rewrite E2. apply last_Some in E2 as [src0 ->].
  rewrite (vial_append_lookup _ _ _ _ Hdst).
  pose proof (objects_lookup_lt _ _ _ Hsrc) as Hf.
  pose proof (objects_lookup_lt _ _ _ Hdst) as Ht.
  rewrite (vial_pop_lookup _ _ src0 color)
    by (by rewrite lookup_write_ne).
  destruct (IH (write (write ss to_vial (dst ++ [color])) from_vial src0)
              src0 (dst ++ [color]) (S q))
    as (k & src' & Hrun & Hsplit & Hcap & Hstop).
  { apply lookup_write_eq. by rewrite length_write. }
  { rewrite lookup_write_ne by done. by apply lookup_write_eq. }
  { rewrite length_app in Hfuel. simpl in Hfuel. lia. }
  exists (S k), src'. rewrite Hrun. rewrite length_app in Hcap, Hstop.
  simpl in Hcap, Hstop. repeat split.
  - f_equal. f_equal; [|lia].
    rewrite (write_write_ne _ to_vial from_vial) by done.
    rewrite !write_write_eq. by rewrite <- app_assoc.
  - rewrite Hsplit, replicate_S_end. by rewrite app_assoc.
  - right. destruct Hcap as [->|Hcap]; lia.
  - destruct Hstop as [Hstop|Hstop]; [by left | right; lia].
Qed.

(** Pouring a list object into itself: the unit that is appended is the
    one that is popped, the loop condition never changes. *)
Lemma pour_loop_same fuel ss v q :
  from_vial = to_vial →
  objects ss !! from_vial = Some v →
  last v = Some color → (Z.of_nat (length v) < size)%Z →
  pour_loop fuel color size from_vial to_vial ss q = OutOfFuel.
Proof.
  intros <- Hv Hlast Hroom. revert q.
  induction fuel as [|fuel IH]; intros q; [done|].
  simpl. rewrite (deref_lookup _ _ _ Hv), Hlast.
  rewrite !bool_decide_eq_true_2; [simpl | done | done |].
  - rewrite (vial_pop_append_same _ _ _ _ Hv). apply IH.
  - destruct v; [done | simpl; lia].
Qed.
End pour_loop.

(** ** The undo loop *)

Section undo_loop.
Implicit Types (ss : list slot) (src dst moved : list Z).
Variables (from_vial to_vial : nat).
Hypothesis distinct : from_vial ≠ to_vial.

(** The units are popped from the top of [to_vial] one by one, so they
    arrive on [from_vial] in reverse order. *)
Lemma undo_loop_distinct ss src dst moved :
  objects ss !! from_vial = Some src → objects ss !! to_vial = Some (dst ++ moved) →
  undo_loop (length moved) from_vial to_vial ss
  = Ret (write (write ss to_vial dst) from_vial (src ++ reverse moved)).
Proof.
  revert ss src.
  induction moved as [|x moved IH] using rev_ind; intros ss src Hsrc Hdst.
  - simpl. rewrite app_nil_r in *.
    by rewrite (write_id _ _ _ Hdst), (write_id _ _ _ Hsrc).
  - rewrite length_app, Nat.add_1_r. simpl.
    rewrite app_assoc in Hdst.
    rewrite (deref_lookup _ _ _ Hdst), last_snoc.
    rewrite (vial_pop_lookup _ _ _ _ Hdst).
    pose proof (objects_lookup_lt _ _ _ Hsrc) as Hf.
    pose proof (objects_lookup_lt _ _ _ Hdst) as Ht.
    rewrite (vial_append_lookup _ _ src)
      by (by rewrite lookup_write_ne).
    rewrite (IH _ (src ++ [x])).
    + rewrite (write_write_ne _ to_vial from_vial) by done.
      rewrite !write_write_eq.
      by rewrite reverse_snoc, <- app_assoc.
    + apply lookup_write_eq. by rewrite length_write.
    + rewrite lookup_write_ne by done. by apply lookup_write_eq.
Qed.

(** Popping more units than [to_vial] holds raises [IndexError]. *)
Lemma undo_loop_short n ss src dst :
  objects ss !! from_vial = Some src → objects ss !! to_vial = Some dst →
  length dst < n →
  undo_loop n from_vial to_vial ss = Raise IndexError.
Proof.
  revert ss src dst. induction n as [|n IH]; intros ss src dst Hsrc Hdst Hn; [lia|].
  simpl. rewrite (deref_lookup _ _ _ Hdst).
  destruct dst as [|x dst _] using rev_ind; [done|].
  rewrite last_snoc. rewrite (vial_pop_lookup _ _ _ _ Hdst).
  pose proof (objects_lookup_lt _ _ _ Hsrc) as Hf.
  pose proof (objects_lookup_lt _ _ _ Hdst) as Ht.
  rewrite (vial_append_lookup _ _ src)
    by (by rewrite lookup_write_ne).
  apply (IH _ (src ++ [x]) dst).
  - apply lookup_write_eq. by rewrite length_write.
  - rewrite lookup_write_ne by done. by apply lookup_write_eq.
  - rewrite length_app in Hn. simpl in Hn. lia.
Qed.

(** Writing the two list objects back undoes writing them. *)
Lemma write_two_back ss src dst src' dst' :
  objects ss !! from_vial = Some src → objects ss !! to_vial = Some dst →
  write (write (write (write ss to_vial dst') from_vial src') to_vial dst)
    from_vial src = ss.
Proof.
  intros Hsrc Hdst.
  rewrite (write_write_ne _ to_vial from_vial) by done.
  rewrite !write_write_eq.
  by rewrite (write_id _ _ _ Hdst), (write_id _ _ _ Hsrc).
Qed.
End undo_loop.

(** ** [PourAction.apply] *)

Lemma set_slots_id board : set_slots board (slots board) = board.
Proof. by destruct board. Qed.

Lemma length_vials board : length (vials board) = length (slots board).
Proof. apply length_view. Qed.

Lemma poured_zero board from_vial to_vial src dst color :
  objects (slots board) !! from_vial = Some src →
  objects (slots board) !! to_vial = Some dst →
  poured board from_vial to_vial src dst 0 color = board.
Proof.
  intros Hsrc Hdst. unfold poured. simpl. rewrite app_nil_r.
  rewrite (write_id _ _ _ Hdst), (write_id _ _ _ Hsrc).
  apply set_slots_id.
Qed.

Lemma vial_ref_objects ss (index : Z) r :
  vial_ref ss index = Some r → objects ss !! r = Some (deref ss r).
Proof.
  intros H. destruct (vial_ref_Some _ _ _ H) as (i & _ & _ & _ & Hr).
  by apply lookup_deref.
Qed.

Lemma PourAction_apply_mono fuel fuel' self board res :
  PourAction_apply fuel self board = Ret res → fuel ≤ fuel' →
  PourAction_apply fuel' self board = Ret res.
Proof.
  unfold PourAction_apply. intros H Hle. simpl in *.
  repeat (destruct (vial_ref _ _); [|done]).
  destruct (bool_decide (length _ = 0)); [done|].
  destruct (last _) as [color|]; [|done].
  destruct (_ && _); [done|].
  destruct (pour_loop fuel _ _ _ _ _ _) as [[ss q]| |] eqn:E; [|done..].
  by rewrite (pour_loop_mono _ _ _ _ _ _ _ _ _ E Hle).
Qed.

Section pour_apply.
Variables (self : PourAction) (board : Board).
Variables (from_vial to_vial : nat) (src dst : list Z).
Hypothesis Hfi : vial_ref (slots board) (_from_index self) = Some from_vial.
Hypothesis Hti : vial_ref (slots board) (_to_index self) = Some to_vial.
Hypothesis Hsrc : objects (slots board) !! from_vial = Some src.
Hypothesis Hdst : objects (slots board) !! to_vial = Some dst.

Local Ltac enter :=
  unfold PourAction_apply; simpl; rewrite Hfi, Hti;
  rewrite (deref_lookup _ _ _ Hsrc), (deref_lookup _ _ _ Hdst).

(** The two early returns. *)
Lemma pour_noop fuel :
  src = [] ∨ (dst ≠ [] ∧ last dst ≠ last src) →
  PourAction_apply fuel self board
  = Ret (false, applied_pour (_from_index self) (_to_index self) (_qty_moved self),
         board).
Proof.
  intros Hnoop. enter.
  case_bool_decide as Hlen; [done|].
  destruct Hnoop as [->|[Hne Hlast]]; [done|].
  destruct (last src) as [color|] eqn:Hcolor.
  2:{ apply last_None in Hcolor. by subst. }
  rewrite bool_decide_eq_true_2.
  2:{ destruct dst; [done | simpl; lia]. }
  by rewrite bool_decide_eq_false_2.
Qed.

(** Past the early returns, with two different list objects. *)
Lemma pour_proper fuel color :
  _qty_moved self = 0 →
  last src = Some color → dst = [] ∨ last dst = Some color →
  from_vial ≠ to_vial → length src < fuel →
  ∃ k src',
    PourAction_apply fuel self board
    = Ret (bool_decide (0 < k),
           applied_pour (_from_index self) (_to_index self) k,
           poured board from_vial to_vial src' dst k color)
    ∧ moved_greedily (vial_size board) src dst src' k color.
Proof.
  intros Hq Hcolor Hmatch Hne Hfuel. enter. rewrite Hcolor, Hq.
  rewrite bool_decide_eq_false_2.
  2:{ intros Hlen. by destruct src. }
  replace (_ && _) with false.
  2:{ destruct Hmatch as [-> | ->]; [done|].
      rewrite (bool_decide_eq_true_2 (Some color = Some color)) by done.
      simpl. by rewrite andb_false_r. }
  destruct (pour_loop_distinct color (vial_size board) from_vial to_vial fuel
              (slots board) src dst 0 Hne Hsrc Hdst Hfuel)
    as (k & src' & -> & Hgreedy).
  exists k, src'. split; [done|]. exact Hgreedy.
Qed.

(** Past the early returns, with one list object that has no room left. *)
Lemma pour_same_full fuel color :
  last src = Some color →
  from_vial = to_vial → (vial_size board ≤ Z.of_nat (length src))%Z → 0 < fuel →
  PourAction_apply fuel self board
  = Ret (bool_decide (0 < _qty_moved self),
         applied_pour (_from_index self) (_to_index self) (_qty_moved self),
         board).
Proof.
  intros Hcolor Heq Hfull Hfuel. enter. rewrite Hcolor.
  assert (dst = src) as -> by (subst to_vial; congruence).
  rewrite bool_decide_eq_false_2.
  2:{ intros Hlen. by destruct src. }
  rewrite Hcolor. rewrite (bool_decide_eq_true_2 (Some color = Some color)) by done.
  rewrite andb_false_r.
  destruct fuel as [|fuel]; [lia|]. simpl.
  rewrite (deref_lookup _ _ _ Hsrc), (deref_lookup _ _ _ Hdst).
  rewrite (bool_decide_eq_false_2 (_ < _)%Z) by lia.
  rewrite andb_false_r. simpl. by rewrite set_slots_id.
Qed.

(** Past the early returns, with one list object that has room: the call
    never returns. *)
Lemma pour_same_diverges fuel color :
  last src = Some color →
  from_vial = to_vial → (Z.of_nat (length src) < vial_size board)%Z →
  PourAction_apply fuel self board = OutOfFuel.
Proof.
  intros Hcolor Heq Hroom. enter. rewrite Hcolor.
  assert (dst = src) as -> by (subst to_vial; congruence).
  rewrite bool_decide_eq_false_2.
  2:{ intros Hlen. by destruct src. }
  rewrite Hcolor. rewrite (bool_decide_eq_true_2 (Some color = Some color)) by done.
  rewrite andb_false_r.
  by rewrite (pour_loop_same color (vial_size board) from_vial to_vial fuel
                (slots board) src _ Heq Hsrc Hcolor Hroom).
Qed.

(** A pour onto a destination that has no room left, whose top matches. *)
Lemma pour_dest_full fuel color :
  last src = Some color → dst = [] ∨ last dst = Some color →
  (vial_size board ≤ Z.of_nat (length dst))%Z → 0 < fuel →
  PourAction_apply fuel self board
  = Ret (bool_decide (0 < _qty_moved self),
         applied_pour (_from_index self) (_to_index self) (_qty_moved self),
         board).
Proof.
  intros Hcolor Hmatch Hfull Hfuel. enter. rewrite Hcolor.
  rewrite bool_decide_eq_false_2 by (by destruct src).
  replace (_ && _) with false.
  2:{ destruct Hmatch as [-> | ->]; [done|].
      rewrite (bool_decide_eq_true_2 (Some color = Some color)) by done.
      simpl. by rewrite andb_false_r. }
  destruct fuel as [|fuel]; [lia|]. simpl.
  rewrite (deref_lookup _ _ _ Hsrc), (deref_lookup _ _ _ Hdst).
  rewrite (bool_decide_eq_false_2 (_ < _)%Z) by lia.
  rewrite andb_false_r. simpl. by rewrite set_slots_id.
Qed.
End pour_apply.

(** Every returning [apply] of a fresh action moved some [k] units of one
    colour from one list object to another, and [k] is positive only for
    two different list objects. *)
Lemma PourAction_apply_Ret fuel self board r self' board' :
  _qty_moved self = 0 →
  PourAction_apply fuel self board = Ret (r, self', board') →
  ∃ from_vial to_vial src dst k src' color,
    vial_ref (slots board) (_from_index self) = Some from_vial
    ∧ vial_ref (slots board) (_to_index self) = Some to_vial
    ∧ objects (slots board) !! from_vial = Some src
    ∧ objects (slots board) !! to_vial = Some dst
    ∧ src = src' ++ replicate k color
    ∧ (k = 0 ∨ (from_vial ≠ to_vial
                ∧ (Z.of_nat (length dst + k) ≤ vial_size board)%Z))
    ∧ r = bool_decide (0 < k)
    ∧ self' = applied_pour (_from_index self) (_to_index self) k
    ∧ board' = poured board from_vial to_vial src' dst k color.
Proof.
  intros Hq Hret.
  destruct (vial_ref (slots board) (_from_index self)) as [fi|] eqn:Hfi.
  2:{ unfold PourAction_apply in Hret. simpl in Hret. by rewrite Hfi in Hret. }
  destruct (vial_ref (slots board) (_to_index self)) as [ti|] eqn:Hti.
  2:{ unfold PourAction_apply in Hret. simpl in Hret. by rewrite Hfi, Hti in Hret. }
  pose proof (vial_ref_objects _ _ _ Hfi) as Hsrc.
  pose proof (vial_ref_objects _ _ _ Hti) as Hdst.
  revert Hsrc Hdst.
  generalize (deref (slots board) fi) (deref (slots board) ti).
  intros src dst Hsrc Hdst.
  cut (∃ k src' color,
         src = src' ++ replicate k color
         ∧ (k = 0 ∨ (fi ≠ ti ∧ (Z.of_nat (length dst + k) ≤ vial_size board)%Z))
         ∧ r = bool_decide (0 < k)
         ∧ self' = applied_pour (_from_index self) (_to_index self) k
         ∧ board' = poured board fi ti src' dst k color).
  { intros (k & src' & color & ? & ? & ? & ? & ?).
    exists fi, ti, src, dst, k, src', color. by split_and!. }
  assert (Hzero : ∀ color : Z,
    PourAction_apply fuel self board
    = Ret (false, applied_pour (_from_index self) (_to_index self) 0, board) →
    ∃ k src' color,
      src = src' ++ replicate k color
      ∧ (k = 0 ∨ (fi ≠ ti ∧ (Z.of_nat (length dst + k) ≤ vial_size board)%Z))
      ∧ r = bool_decide (0 < k)
      ∧ self' = applied_pour (_from_index self) (_to_index self) k
      ∧ board' = poured board fi ti src' dst k color).
  { intros color H. rewrite H in Hret. injection Hret as <- <- <-.
    exists 0, src, color. rewrite (poured_zero _ _ _ _ _ _ Hsrc Hdst).
    simpl. rewrite app_nil_r. split_and!; auto. }
  destruct (last src) as [color|] eqn:Hcolor.
  2:{ apply last_None in Hcolor. apply (Hzero 0%Z).
      rewrite <- Hq. eapply pour_noop; eauto. }
  destruct (decide (dst ≠ [] ∧ last dst ≠ Some color)) as [Hmis|Hmatch].
  { apply (Hzero color). rewrite <- Hq. eapply pour_noop; eauto.
    right. by rewrite Hcolor. }
  assert (dst = [] ∨ last dst = Some color) as Hmatch'.
  { destruct (decide (dst = [])); [by left | right].
    destruct (decide (last dst = Some color)); [done|]. by destruct Hmatch. }
  destruct (decide (fi = ti)) as [Heq|Hne].
  - destruct (decide (Z.of_nat (length src) < vial_size board)%Z) as [Hroom|Hfull].
    + by rewrite (pour_same_diverges self board fi ti src dst Hfi Hti Hsrc Hdst
                    fuel color Hcolor Heq Hroom) in Hret.
    + apply (Hzero color). destruct fuel as [|fuel].
      * exfalso. revert Hret. unfold PourAction_apply. simpl. rewrite Hfi, Hti.
        rewrite (deref_lookup _ _ _ Hsrc), (deref_lookup _ _ _ Hdst), Hcolor.
        rewrite bool_decide_eq_false_2 by (by destruct src).
        replace (_ && _) with false; [done|].
        destruct Hmatch' as [-> | ->]; [done|].
        rewrite (bool_decide_eq_true_2 (Some color = Some color)) by done.
        simpl. by rewrite andb_false_r.
      * rewrite (pour_same_full self board fi ti src dst Hfi Hti Hsrc Hdst
                   (S fuel) color Hcolor Heq); [by rewrite Hq | lia | lia].
  - destruct (pour_proper self board fi ti src dst Hfi Hti Hsrc Hdst
                (fuel `max` S (length src)) color Hq Hcolor Hmatch' Hne)
      as (k & src' & Hrun & Hsplit & Hcap & Hstop); [lia|].
    rewrite (PourAction_apply_mono _ _ _ _ _ Hret) in Hrun by lia.
    injection Hrun as -> -> ->.
    exists k, src', color. split_and!; auto.
    destruct Hcap as [->|Hcap]; auto.
Qed.

(** A valid index holds a list object, and reading the index shows its
    contents. *)
Lemma valid_index_lookup board (i : Z) :
  valid_index board i →
  vial_ref (slots board) i = Some (root (slots board) (Z.to_nat i))
  ∧ objects (slots board) !! root (slots board) (Z.to_nat i)
    = Some (vial_at (slots board) (Z.to_nat i))
  ∧ vials board !! Z.to_nat i = Some (vial_at (slots board) (Z.to_nat i)).
Proof.
  unfold valid_index. rewrite length_vials. intros Hi.
  assert (Z.to_nat i < length (slots board)) by lia.
  split_and!.
  - by apply vial_ref_valid.
  - by apply vial_at_objects.
  - by apply view_lookup.
Qed.

(** A returning [apply] of a fresh action that reports [false] has left the
    board as it was. *)
Lemma PourAction_apply_false fuel self board self' board' :
  _qty_moved self = 0 →
  PourAction_apply fuel self board = Ret (false, self', board') →
  board' = board ∧ self' = applied_pour (_from_index self) (_to_index self) 0.
Proof.
  intros Hq Hret.
  destruct (PourAction_apply_Ret _ _ _ _ _ _ Hq Hret)
    as (fi & ti & src & dst & k & src' & color & _ & _ & Hsrc & Hdst
        & Hsplit & _ & Hr & -> & ->).
  symmetry in Hr. apply bool_decide_eq_false in Hr.
  assert (k = 0) as -> by lia. simpl in Hsplit. rewrite app_nil_r in Hsplit.
  subst src'. split; [|done]. by apply poured_zero.
Qed.

(** ** Indices and the list objects they hold *)

Lemma same_object_root board (i j : Z) :
  valid_index board i → valid_index board j →
  same_object board i j
  ↔ root (slots board) (Z.to_nat i) = root (slots board) (Z.to_nat j).
Proof.
  unfold valid_index, same_object. rewrite length_vials. intros Hi Hj.
  rewrite !vial_ref_valid by done. split; [by intros [= ?] | by intros ->].
Qed.

Lemma held_once_once board (i : Z) :
  valid_index board i → held_once board i → once (slots board) (Z.to_nat i).
Proof.
  intros Hi Honce. pose proof Hi as Hi'. unfold valid_index in Hi'.
  rewrite length_vials in Hi'.
  assert (∀ j, j < length (slots board) →
            root (slots board) j = root (slots board) (Z.to_nat i) →
            j = Z.to_nat i) as Hall.
  { intros j Hj Hroot.
    assert (valid_index board (Z.of_nat j)) as Hvj.
    { unfold valid_index. rewrite length_vials. lia. }
    specialize (Honce (Z.of_nat j) Hvj).
    rewrite (same_object_root _ _ _ Hvj Hi), Nat2Z.id in Honce.
    specialize (Honce Hroot). lia. }
  assert (root (slots board) (Z.to_nat i) = Z.to_nat i) as Hroot.
  { apply Hall; [apply root_lt; lia | apply root_root]. }
  split_and!; [lia | done |]. intros j Hj Hr. apply Hall; [done|]. congruence.
Qed.

Lemma distinct_objects_roots board :
  distinct_objects board ↔ ∀ j, j < length (slots board) → root (slots board) j = j.
Proof.
  split.
  - intros Hd j Hj.
    assert (valid_index board (Z.of_nat j)) as Hvj.
    { unfold valid_index. rewrite length_vials. lia. }
    destruct (held_once_once board _ Hvj (Hd _ Hvj)) as (_ & Hr & _).
    by rewrite Nat2Z.id in Hr.
  - intros Hroots i Hi j Hj Hsame.
    apply (same_object_root _ _ _ Hj Hi) in Hsame.
    unfold valid_index in Hi, Hj. rewrite length_vials in Hi, Hj.
    rewrite !Hroots in Hsame by lia. lia.
Qed.

(** Neither a write nor a new last vial changes which indices hold one
    object. *)
Lemma distinct_objects_write board r v :
  distinct_objects board → distinct_objects (set_slots board (write (slots board) r v)).
Proof.
  rewrite !distinct_objects_roots. simpl. intros H j Hj.
  rewrite length_write in Hj. rewrite root_write. by apply H.
Qed.

Lemma distinct_objects_add board v :
  distinct_objects board →
  distinct_objects (set_slots board (slots board ++ [fresh v])).
Proof.
  rewrite !distinct_objects_roots. simpl. intros H j Hj.
  rewrite length_app in Hj. simpl in Hj.
  destruct (decide (j = length (slots board))) as [->|Hne].
  - apply root_fresh_end.
  - rewrite root_app_l by lia. apply H. lia.
Qed.

Lemma distinct_objects_init size vs : distinct_objects (Board_init size vs).
Proof. apply distinct_objects_roots. intros j _. apply root_fresh. Qed.

Lemma vials_init size vs : vials (Board_init size vs) = vs.
Proof. apply view_fresh. Qed.

Lemma once_write ss r r' v : once ss r → once (write ss r' v) r.
Proof.
  intros (Hr & Hroot & Hall). unfold once.
  rewrite length_write, root_write. split_and!; [done..|].
  intros j Hj. rewrite root_write. by apply Hall.
Qed.

Lemma once_lookup ss r : once ss r → view ss !! r = objects ss !! r.
Proof.
  intros (Hr & Hroot & _). rewrite view_lookup by done.
  unfold vial_at. rewrite Hroot. symmetry. by apply lookup_deref.
Qed.

(** Writes to two list objects that are each held once are updates of the
    list of vials at the two indices. *)
Lemma view_two_writes ss a b va vb :
  once ss a → once ss b →
  view (write (write ss b vb) a va) = <[a := va]> (<[b := vb]> (view ss)).
Proof.
  intros Ha Hb.
  destruct (once_write ss a b vb Ha) as (Ha1 & Ha2 & Ha3).
  rewrite view_write_once by done.
  destruct Hb as (Hb1 & Hb2 & Hb3). by rewrite view_write_once.
Qed.

(** ** Claims about [PourAction.apply] *)

(** What [apply] does with one list object as source and destination,
    named by one index or by two: an empty one or one without room gives
    [false] and no change, any other keeps the loop running for ever. *)
Lemma self_pour_cases board (f t : Z) src :
  valid_index board f → valid_index board t → same_object board f t →
  vials board !! Z.to_nat f = Some src →
  (src = [] ∨ (vial_size board ≤ Z.of_nat (length src))%Z →
   ∀ fuel, 0 < fuel →
     PourAction_apply fuel (PourAction_init f t) board
     = Ret (false, applied_pour f t 0, board))
  ∧ (src ≠ [] → (Z.of_nat (length src) < vial_size board)%Z →
     ∀ fuel, PourAction_apply fuel (PourAction_init f t) board = OutOfFuel).
Proof.
  intros Hf Ht Hsame Hsrc.
  destruct (valid_index_lookup _ _ Hf) as (Hfi & Hobj & Hview).
  destruct (valid_index_lookup _ _ Ht) as (Hti & _ & _).
  rewrite Hsrc in Hview. injection Hview as Hview. rewrite <- Hview in Hobj.
  clear Hview.
  pose proof (proj1 (same_object_root _ _ _ Hf Ht) Hsame) as Hroot.
  rewrite <- Hroot in Hti. split.
  - intros Hcase fuel Hfuel. destruct (last src) as [color|] eqn:Hcolor.
    + destruct Hcase as [Hnil|Hfull]; [by rewrite Hnil in Hcolor|].
      by apply (pour_same_full (PourAction_init f t) board _ _ src src
                  Hfi Hti Hobj Hobj fuel color).
    + apply last_None in Hcolor.
      apply (pour_noop (PourAction_init f t) board _ _ src src Hfi Hti Hobj Hobj).
      by left.
  - intros Hne Hroom fuel. destruct (last src) as [color|] eqn:Hcolor.
    + by apply (pour_same_diverges (PourAction_init f t) board _ _ src src
                  Hfi Hti Hobj Hobj fuel color).
    + by apply last_None in Hcolor.
Qed.

(** C1 (the code at the failing input): with [vial_size = 2] and the single
    vial [[1]], the index 0 is valid and the pour of vial 0 into itself
    passes both early returns; its loop condition then stays true, so
    [apply] returns neither [true] nor [false], whatever the fuel. *)
Theorem C1_self_pour_hangs :
  valid_index (Board_init 2 [[1%Z]]) 0
  ∧ ∀ fuel, PourAction_apply fuel (PourAction_init 0 0) (Board_init 2 [[1%Z]])
            = OutOfFuel.
Proof.
  assert (valid_index (Board_init 2 [[1%Z]]) 0) as H0 by (by compute).
  split; [done|]. intros fuel.
  by apply (proj2 (self_pour_cases (Board_init 2 [[1%Z]]) 0 0 [1%Z]
                     H0 H0 eq_refl eq_refl)).
Qed.

(** The same with two valid, different indices that hold one list object,
    [Board(4, [v, v])] with [v = [1]]: the pour of vial 0 into vial 1 never
    returns. *)
Example shared_pour_hangs fuel :
  PourAction_apply fuel (PourAction_init 0 1)
    (Board_of_slots 4 [fresh [1%Z]; shared 0])
  = OutOfFuel.
Proof.
  apply (proj2 (self_pour_cases (Board_of_slots 4 [fresh [1%Z]; shared 0]) 0 1 [1%Z]
                  ltac:(by compute) ltac:(by compute) eq_refl eq_refl));
    [done | simpl; lia].
Qed.

(** ** Claims about pouring a vial into itself *)

(** C6 (the code at the failing input): on the board of the specification's
    scenario, [vial_size = 4] and vials [[1,1],[1],[]], the pour of vial 0
    into itself does not return [false]; it does not return at all. *)
Theorem C6_self_pour_never_returns fuel :
  PourAction_apply fuel (PourAction_init 0 0) (Board_init 4 [[1; 1]; [1]; []]%Z)
  = OutOfFuel.
Proof.
  apply (proj2 (self_pour_cases (Board_init 4 [[1; 1]; [1]; []]%Z) 0 0 [1; 1]%Z
                  ltac:(by compute) ltac:(by compute) eq_refl eq_refl));
    [done | simpl; lia].
Qed.

(** ** Claims about [PourAction.undo] *)

(** Undoing right after a returning [apply] of a fresh action gives the
    board back, whatever [apply] returned. *)
Lemma PourAction_apply_undo fuel self board r self' board' :
  _qty_moved self = 0 →
  PourAction_apply fuel self board = Ret (r, self', board') →
  PourAction_undo self' board' = Ret board.
Proof.
  intros Hq Hret.
  destruct (PourAction_apply_Ret _ _ _ _ _ _ Hq Hret)
    as (fi & ti & src & dst & k & src' & color & Hfi & Hti & Hsrc & Hdst
        & Hsplit & Hk & _ & -> & ->).
  unfold PourAction_undo, poured. simpl. rewrite !vial_ref_write, Hfi, Hti.
  destruct Hk as [->|[Hne _]].
  { simpl in *. rewrite app_nil_r in *. subst src'.
    rewrite (write_id _ _ _ Hdst), (write_id _ _ _ Hsrc).
    by destruct board. }
  pose proof (objects_lookup_lt _ _ _ Hsrc).
  pose proof (objects_lookup_lt _ _ _ Hdst).
  rewrite <- (length_replicate k color) at 1.
  rewrite (undo_loop_distinct fi ti Hne _ src' dst (replicate k color)).
  - simpl. rewrite reverse_replicate, <- Hsplit.
    rewrite (write_two_back fi ti Hne _ _ _ _ _ Hsrc Hdst).
    by destruct board.
  - apply lookup_write_eq. by rewrite length_write.
  - rewrite lookup_write_ne by done. by apply lookup_write_eq.
Qed.

(** C2: whenever [apply] of a pour returned [true], the immediate [undo] of
    that action returns and restores the board, every vial holding exactly
    the sequence it held before the [apply]. *)
Theorem C2_pour_undo_restores fuel (f t : Z) board self' board' :
  PourAction_apply fuel (PourAction_init f t) board = Ret (true, self', board') →
  PourAction_undo self' board' = Ret board.
Proof.
  intros Hret.
  by apply (PourAction_apply_undo fuel (PourAction_init f t) board true self' board').
Qed.

Lemma C2_pour_undo_restores_witness :
  PourAction_undo (applied_pour 0 2 2) (Board_init 4 [[]; [1]; [1; 1]]%Z)
  = Ret (Board_init 4 [[1; 1]; [1]; []]%Z).
Proof.
  apply (C2_pour_undo_restores 3 0 2 (Board_init 4 [[1; 1]; [1]; []]%Z)).
  reflexivity.
Defined.

(** C7: [undo] of a pour action whose [_applied] flag is still [False], as
    [__init__] leaves it until [apply] is invoked, raises [ValueError]. *)
Theorem C7_undo_before_apply_raises self board :
  _applied self = false →
  PourAction_undo self board = Raise (ValueError "Action not yet applied").
Proof. intros H. unfold PourAction_undo. by rewrite H. Qed.

Lemma C7_undo_before_apply_raises_witness :
  PourAction_undo (PourAction_init 0 1) (Board_init 4 [[1; 1]; [1]; []]%Z)
  = Raise (ValueError "Action not yet applied").
Proof. apply C7_undo_before_apply_raises. reflexivity. Defined.

(** C10: when [apply] of a fresh pour action returned [false], the action is
    marked applied with a moved quantity of zero, and its [undo] returns
    without raising and leaves the board, which [apply] had not changed,
    unchanged. *)
Theorem C10_undo_after_failed_apply fuel (f t : Z) board self' board' :
  PourAction_apply fuel (PourAction_init f t) board = Ret (false, self', board') →
  _applied self' = true ∧ _qty_moved self' = 0
  ∧ board' = board ∧ PourAction_undo self' board' = Ret board'.
Proof.
  intros Hret.
  destruct (PourAction_apply_false fuel (PourAction_init f t) board
              self' board' eq_refl Hret) as [Hb Hs].
  rewrite (PourAction_apply_undo fuel (PourAction_init f t) board false
             self' board' eq_refl Hret).
  rewrite Hb, Hs. by split_and!.
Qed.

Lemma C10_undo_after_failed_apply_witness :
  _applied (applied_pour 1 0 0) = true ∧ _qty_moved (applied_pour 1 0 0) = 0
  ∧ Board_init 4 [[1; 2]; [1; 1]; []]%Z = Board_init 4 [[1; 2]; [1; 1]; []]%Z
  ∧ PourAction_undo (applied_pour 1 0 0) (Board_init 4 [[1; 2]; [1; 1]; []]%Z)
    = Ret (Board_init 4 [[1; 2]; [1; 1]; []]%Z).
Proof.
  apply (C10_undo_after_failed_apply 0 1 0 (Board_init 4 [[1; 2]; [1; 1]; []]%Z)).
  reflexivity.
Defined.

(** ** [Board.is_solved] *)

Lemma all_equal_to_true first_elem vial :
  all_equal_to first_elem vial = true ↔ ∀ x, x ∈ vial → x = first_elem.
Proof.
  induction vial as [|elem vial IH]; simpl.
  - split; [|done]. intros _ x Hx. by apply elem_of_nil in Hx.
  - case_bool_decide as Helem; simpl.
    + rewrite IH. split.
      * intros H x Hx. apply elem_of_cons in Hx as [->|Hx]; auto.
      * intros H x Hx. apply H. by right.
    + split; [done|]. intros H. destruct Helem. apply H. by left.
Qed.

Lemma is_solved_loop_true size vs :
  is_solved_loop size vs = true ↔ Forall (vial_solved size) vs.
Proof.
  induction vs as [|vial vs IH]; simpl.
  - split; [by constructor | done].
  - rewrite Forall_cons, <- IH. clear IH. unfold vial_solved.
    case_bool_decide as Hlen.
    { destruct vial; [|done].
      split; [intros Hrest; split; [by left | done] | by intros [_ Hrest]]. }
    case_bool_decide as Hfull; simpl.
    2:{ split; [done|]. intros [[->|[Hsize _]] _]; done. }
    destruct vial as [|first_elem rest]; [done|].
    destruct (all_equal_to first_elem (first_elem :: rest)) eqn:Hall.
    + pose proof (proj1 (all_equal_to_true _ _) Hall) as Hsame.
      split; [|by intros [_ Hrest]].
      intros Hrest. split; [|done]. right. split; [done|].
      intros x y Hx Hy. by rewrite (Hsame x Hx), (Hsame y Hy).
    + split; [done|]. intros [[?|[_ Hmono]] _]; [done|].
      assert (all_equal_to first_elem (first_elem :: rest) = true) as Htrue.
      { apply all_equal_to_true. intros x Hx. apply Hmono; [done | by left]. }
      congruence.
Qed.

(** C5: [Board.is_solved] returns [true] exactly when every vial is empty
    or has length [vial_size] with all its units equal; a board without
    vials is solved. *)
Theorem C5_is_solved_iff :
  (∀ board,
     Board_is_solved board = true
     ↔ Forall (vial_solved (vial_size board)) (vials board))
  ∧ (∀ size history, Board_is_solved (mkBoard size [] history) = true).
Proof.
  split; [|done]. intros board. apply is_solved_loop_true.
Qed.

(** ** The units on the board *)

Section units.
Implicit Types (vs : list (list Z)) (a b m old x : list Z).

Lemma concat_insert_perm vs i old x :
  vs !! i = Some old → concat (<[i := x]> vs) ++ old ≡ₚ concat vs ++ x.
Proof.
  revert i. induction vs as [|v vs IH]; intros i Hi; [done|].
  destruct i as [|i]; simpl in *.
  - injection Hi as ->. rewrite <- !app_assoc.
    rewrite (Permutation_app_comm (concat vs) old).
    rewrite (Permutation_app_comm (concat vs) x).
    rewrite !app_assoc. f_equiv. apply Permutation_app_comm.
  - rewrite <- !app_assoc. f_equiv. by apply IH.
Qed.

(** Moving the units [m] from the top of one vial to the top of another,
    in any order, keeps the multiset of all units. *)
Lemma concat_move_perm vs i j a b m m' :
  i ≠ j → vs !! i = Some (a ++ m) → vs !! j = Some b → m' ≡ₚ m →
  concat (<[i := a]> (<[j := b ++ m']> vs)) ≡ₚ concat vs.
Proof.
  intros Hne Hi Hj Hm.
  assert (<[j := b ++ m']> vs !! i = Some (a ++ m)) as Hi'.
  { by rewrite list_lookup_insert_ne. }
  pose proof (concat_insert_perm _ _ _ a Hi') as H1.
  pose proof (concat_insert_perm _ _ _ (b ++ m') Hj) as H2.
  apply (Permutation_app_inv_r (a ++ m ++ b)).
  transitivity ((concat (<[i := a]> (<[j := b ++ m']> vs)) ++ (a ++ m)) ++ b).
  { by rewrite <- !app_assoc. }
  rewrite H1.
  transitivity ((concat (<[j := b ++ m']> vs) ++ b) ++ a).
  { rewrite <- !app_assoc. f_equiv. apply Permutation_app_comm. }
  rewrite H2, Hm. rewrite <- !app_assoc. f_equiv.
  rewrite (Permutation_app_comm b), <- app_assoc.
  rewrite !app_assoc. f_equiv. apply Permutation_app_comm.
Qed.
End units.

Section pour_undo.
Variables (self : PourAction) (board : Board) (from_vial to_vial : nat).
Hypothesis Hfi : vial_ref (slots board) (_from_index self) = Some from_vial.
Hypothesis Hti : vial_ref (slots board) (_to_index self) = Some to_vial.
Hypothesis Hne : from_vial ≠ to_vial.

(** [undo] of an applied action between two different list objects. *)
Lemma PourAction_undo_distinct src dst moved :
  _applied self = true →
  objects (slots board) !! from_vial = Some src →
  objects (slots board) !! to_vial = Some (dst ++ moved) →
  length moved = _qty_moved self →
  PourAction_undo self board
  = Ret (set_slots board
           (write (write (slots board) to_vial dst) from_vial (src ++ reverse moved))).
Proof.
  intros Happlied Hsrc Hdst Hlen. unfold PourAction_undo.
  rewrite Happlied, Hfi, Hti. simpl. rewrite <- Hlen.
  by rewrite (undo_loop_distinct from_vial to_vial Hne _ src dst moved).
Qed.

(** A returning [undo] has found enough units on the destination. *)
Lemma PourAction_undo_Ret board' :
  PourAction_undo self board = Ret board' →
  ∃ src dst moved,
    _applied self = true
    ∧ objects (slots board) !! from_vial = Some src
    ∧ objects (slots board) !! to_vial = Some (dst ++ moved)
    ∧ length moved = _qty_moved self
    ∧ board' = set_slots board
                 (write (write (slots board) to_vial dst) from_vial
                    (src ++ reverse moved)).
Proof.
  intros Hret.
  destruct (_applied self) eqn:Happlied.
  2:{ unfold PourAction_undo in Hret. by rewrite Happlied in Hret. }
  pose proof (vial_ref_objects _ _ _ Hfi) as Hsrc.
  pose proof (vial_ref_objects _ _ _ Hti) as Hdst.
  revert Hsrc Hdst.
  generalize (deref (slots board) from_vial) (deref (slots board) to_vial).
  intros src dstv Hsrc Hdst.
  destruct (decide (length dstv < _qty_moved self)) as [Hshort|Hlong].
  { unfold PourAction_undo in Hret. rewrite Happlied, Hfi, Hti in Hret.
    simpl in Hret.
    by rewrite (undo_loop_short from_vial to_vial Hne _ _ src dstv Hsrc Hdst Hshort)
      in Hret. }
  set (n := length dstv - _qty_moved self).
  exists src, (take n dstv), (drop n dstv).
  assert (length (drop n dstv) = _qty_moved self) as Hlen.
  { rewrite length_drop. unfold n. lia. }
  rewrite <- (take_drop n dstv) in Hdst.
  rewrite (PourAction_undo_distinct src _ _ Happlied Hsrc Hdst Hlen) in Hret.
  injection Hret as <-. by split_and!.
Qed.
End pour_undo.

(** ** Claims about the units on the board *)

Lemma poured_units_preserved board fi ti src' dst k color :
  fi ≠ ti → once (slots board) fi → once (slots board) ti →
  objects (slots board) !! fi = Some (src' ++ replicate k color) →
  objects (slots board) !! ti = Some dst →
  units_preserved fi ti board (poured board fi ti src' dst k color).
Proof.
  intros Hne Hfi Hti Hsrc Hdst.
  unfold units_preserved, all_units, poured, vials. simpl.
  rewrite view_two_writes by done. split_and!.
  - apply (concat_move_perm _ fi ti src' dst (replicate k color));
      [done | by rewrite once_lookup | by rewrite once_lookup | done].
  - by rewrite !length_insert.
  - intros i Hif Hit. by rewrite !list_lookup_insert_ne.
Qed.

(** With valid indices that hold two different list objects the loop runs
    at most once per unit of the source, so [apply] returns, and returns
    the same for every sufficient fuel. *)
Lemma PourAction_apply_returns board (f t : Z) :
  valid_index board f → valid_index board t → ¬ same_object board f t →
  ∃ res, ∀ fuel, length (vial_at (slots board) (Z.to_nat f)) < fuel →
    PourAction_apply fuel (PourAction_init f t) board = Ret res.
Proof.
  intros Hf Ht Hdiff.
  destruct (valid_index_lookup _ _ Hf) as (Hfi & Hsrc & _).
  destruct (valid_index_lookup _ _ Ht) as (Hti & Hdst & _).
  rewrite (same_object_root _ _ _ Hf Ht) in Hdiff.
  revert Hsrc Hdst.
  generalize (vial_at (slots board) (Z.to_nat f)) (vial_at (slots board) (Z.to_nat t)).
  intros src dst Hsrc Hdst.
  destruct (decide (src = [] ∨ (dst ≠ [] ∧ last dst ≠ last src))) as [Hnoop|Hgo].
  { eexists. intros fuel _.
    by apply (pour_noop (PourAction_init f t) board _ _ src dst Hfi Hti Hsrc Hdst). }
  destruct (last src) as [color|] eqn:Hcolor.
  2:{ apply last_None in Hcolor. destruct Hgo. by left. }
  assert (dst = [] ∨ last dst = Some color) as Hmatch.
  { destruct (decide (dst = [])); [by left | right].
    destruct (decide (last dst = Some color)); [done|].
    destruct Hgo. by right. }
  destruct (pour_proper (PourAction_init f t) board _ _ src dst
              Hfi Hti Hsrc Hdst (S (length src)) color
              eq_refl Hcolor Hmatch Hdiff)
    as (k & src' & Hrun & _); [lia|].
  eexists. intros fuel Hfuel.
  apply (PourAction_apply_mono _ _ _ _ _ Hrun). lia.
Qed.

(** C9 (as stated, for every board) fails on a board that holds one list
    object at two indices, [Board(4, [a, v, v])] with [a = [1]] and
    [v = []].  The indices 0 and 1 are valid and different; the pour from
    vial 0 into vial 1 returns [true], and the unit it moved shows at
    index 2 as well: the vial at index 2 has changed and the vials hold two
    units where they held one. *)
Lemma C9_shared_vial_counterexample :
  valid_index (Board_of_slots 4 [fresh [1%Z]; fresh []; shared 1]) 0
  ∧ valid_index (Board_of_slots 4 [fresh [1%Z]; fresh []; shared 1]) 1
  ∧ vials (Board_of_slots 4 [fresh [1%Z]; fresh []; shared 1]) = [[1%Z]; []; []]
  ∧ ∃ self' board',
      (∀ fuel, 1 < fuel →
         PourAction_apply fuel (PourAction_init 0 1)
           (Board_of_slots 4 [fresh [1%Z]; fresh []; shared 1])
         = Ret (true, self', board'))
      ∧ vials board' = [[]; [1%Z]; [1%Z]]
      ∧ ¬ all_units board'
          ≡ₚ all_units (Board_of_slots 4 [fresh [1%Z]; fresh []; shared 1])
      ∧ vials board' !! 2
        ≠ vials (Board_of_slots 4 [fresh [1%Z]; fresh []; shared 1]) !! 2.
Proof.
  split_and!; [by compute | by compute | done |].
  eexists _, _. split_and!.
  - intros fuel Hfuel.
    apply (PourAction_apply_mono 2); [reflexivity | lia].
  - done.
  - intros Hperm. apply Permutation_length in Hperm. done.
  - done.
Qed.

(** C9 (amended): with valid and different indices whose two vials are
    list objects held at no other index of [board.vials], [apply] of a
    fresh pour action returns for every sufficient fuel, every returning
    [apply] and every returning [undo] keeps the multiset of all units and
    the number of vials and changes no vial but the two named ones, and
    [undo] of an applied action returns whenever the destination holds at
    least the recorded quantity. *)
Theorem C9_pour_preserves_units board (f t : Z) :
  valid_index board f → valid_index board t → f ≠ t →
  held_once board f → held_once board t →
  (∃ res, ∀ fuel, length (vial_at (slots board) (Z.to_nat f)) < fuel →
     PourAction_apply fuel (PourAction_init f t) board = Ret res)
  ∧ (∀ fuel r self' board',
       PourAction_apply fuel (PourAction_init f t) board = Ret (r, self', board') →
       units_preserved (Z.to_nat f) (Z.to_nat t) board board')
  ∧ (∀ self board',
       _from_index self = f → _to_index self = t →
       PourAction_undo self board = Ret board' →
       units_preserved (Z.to_nat f) (Z.to_nat t) board board')
  ∧ (∀ self,
       _from_index self = f → _to_index self = t → _applied self = true →
       _qty_moved self ≤ length (vial_at (slots board) (Z.to_nat t)) →
       ∃ board', PourAction_undo self board = Ret board').
Proof.
  intros Hf Ht Hne Hfonce Htonce.
  pose proof (held_once_once _ _ Hf Hfonce) as Hf1.
  pose proof (held_once_once _ _ Ht Htonce) as Ht1.
  destruct (valid_index_lookup _ _ Hf) as (Hfi & Hsrc & _).
  destruct (valid_index_lookup _ _ Ht) as (Hti & Hdst & _).
  assert (Z.to_nat f ≠ Z.to_nat t) as Hne' by (unfold valid_index in *; lia).
  destruct Hf1 as (Hf1 & Hfroot & Hfall). destruct Ht1 as (Ht1 & Htroot & Htall).
  rewrite Hfroot in Hfi, Hsrc. rewrite Htroot in Hti, Hdst.
  assert (once (slots board) (Z.to_nat f)) as Hfo by done.
  assert (once (slots board) (Z.to_nat t)) as Hto by done.
  split_and!.
  - apply PourAction_apply_returns; [done..|].
    rewrite (same_object_root _ _ _ Hf Ht). congruence.
  - intros fuel r self' board' Hret.
    destruct (PourAction_apply_Ret fuel (PourAction_init f t) board r self' board'
                eq_refl Hret)
      as (fi & ti & src0 & dst0 & k & src' & color & Hfi' & Hti' & Hsrc' & Hdst'
          & Hsplit & _ & _ & _ & ->).
    simpl in Hfi', Hti'. rewrite Hfi in Hfi'. rewrite Hti in Hti'.
    injection Hfi' as <-. injection Hti' as <-.
    apply poured_units_preserved; [done..| |done]. by rewrite <- Hsplit.
  - intros self board' <- <- Hret.
    destruct (PourAction_undo_Ret self board _ _ Hfi Hti Hne' board' Hret)
      as (src0 & dst0 & moved & _ & Hsrc' & Hdst' & _ & ->).
    unfold units_preserved, all_units, vials. simpl.
    rewrite view_two_writes by done. split_and!.
    + rewrite (list_insert_insert_ne _ (Z.to_nat (_from_index self))) by done.
      apply (concat_move_perm _ _ _ dst0 src0 moved);
        [done | by rewrite once_lookup | by rewrite once_lookup |].
      apply reverse_Permutation.
    + by rewrite !length_insert.
    + intros i Hif Hit. by rewrite !list_lookup_insert_ne.
  - intros self <- <- Happlied Hqty.
    revert Hdst Hqty. generalize (vial_at (slots board) (Z.to_nat (_to_index self))).
    intros dst Hdst Hqty.
    set (n := length dst - _qty_moved self).
    assert (length (drop n dst) = _qty_moved self) as Hlen.
    { rewrite length_drop. unfold n. lia. }
    rewrite <- (take_drop n dst) in Hdst.
    eexists.
    by apply (PourAction_undo_distinct self board _ _ Hfi Hti Hne' _ _ _
                Happlied Hsrc Hdst Hlen).
Qed.

(** The amended claim on a board that does hold one list object twice, at
    the indices 1 and 3; the pour is between the vials 0 and 2. *)
Lemma C9_pour_preserves_units_witness :
  ∃ res, ∀ fuel,
    length (vial_at [fresh [1; 1]%Z; fresh [1%Z]; fresh []; shared 1] 0) < fuel →
    PourAction_apply fuel (PourAction_init 0 2)
      (Board_of_slots 4 [fresh [1; 1]%Z; fresh [1%Z]; fresh []; shared 1])
    = Ret res.
Proof.
  assert (∀ (i : Z) (P : Z → Prop), (0 ≤ i < 4)%Z →
            P 0%Z → P 1%Z → P 2%Z → P 3%Z → P i) as Hcases.
  { intros i P Hi H0 H1 H2 H3.
    assert (i = 0 ∨ i = 1 ∨ i = 2 ∨ i = 3)%Z as [->|[->|[->| ->]]] by lia; done. }
  refine (proj1 (C9_pour_preserves_units
            (Board_of_slots 4 [fresh [1; 1]%Z; fresh [1%Z]; fresh []; shared 1])
            0 2 _ _ _ _ _)).
  - by compute.
  - by compute.
  - lia.
  - intros j Hj. revert j Hj. unfold valid_index. simpl. intros j Hj.
    by apply (Hcases j (λ j, same_object _ j 0 → j = 0%Z) Hj).
  - intros j Hj. revert j Hj. unfold valid_index. simpl. intros j Hj.
    by apply (Hcases j (λ j, same_object _ j 2 → j = 2%Z) Hj).
Defined.

(** ** The board and its history *)

(** [Board.undo] with a last entry [action] pops it and undoes it. *)
Lemma Board_undo_snoc board h action :
  _history board = h ++ [action] →
  Board_undo board = Action_undo action (set_history board h).
Proof.
  intros Hh. unfold Board_undo. rewrite Hh, length_app, last_snoc, removelast_last.
  rewrite bool_decide_eq_false_2; [done | simpl; lia].
Qed.

(** [apply] of a pour touches neither the capacity nor the history, and
    leaves every list object at the indices that held it. *)
Lemma PourAction_apply_fields fuel self board r self' board' :
  _qty_moved self = 0 →
  PourAction_apply fuel self board = Ret (r, self', board') →
  vial_size board' = vial_size board ∧ _history board' = _history board
  ∧ back <$> slots board' = back <$> slots board.
Proof.
  intros Hq Hret.
  destruct (PourAction_apply_Ret _ _ _ _ _ _ Hq Hret)
    as (fi & ti & src & dst & k & src' & color & _ & _ & _ & _ & _ & _ & _ & _ & ->).
  split_and!; [done..|]. unfold poured. simpl. by rewrite !backs_write.
Qed.

Lemma Board_pour_Ret fuel (f t : Z) board board' :
  Board_pour fuel f t board = Ret board' →
  ∃ r self' board1,
    PourAction_apply fuel (PourAction_init f t) board = Ret (r, self', board1)
    ∧ board' = (if r then set_history board1 (_history board1 ++ [Pour self'])
                else board1).
Proof.
  unfold Board_pour, Board_apply_action, Action_apply. simpl.
  destruct (PourAction_apply fuel (PourAction_init f t) board)
    as [[[r self'] board1]| |]; [|done..].
  simpl. intros Hret. exists r, self', board1. split; [done|].
  destruct r; simpl in Hret; by injection Hret as <-.
Qed.

Lemma Board_pour_of_apply fuel (f t : Z) board r self' board1 :
  PourAction_apply fuel (PourAction_init f t) board = Ret (r, self', board1) →
  Board_pour fuel f t board
  = Ret (if r then set_history board1 (_history board1 ++ [Pour self'])
         else board1).
Proof.
  intros H. unfold Board_pour, Board_apply_action, Action_apply. simpl.
  rewrite H. simpl. by destruct r.
Qed.

(** A returning call either leaves the board as it was and records nothing,
    or records one action whose [undo] leads back to the board as it was. *)
Lemma Board_call_undo fuel c board board' :
  Board_call fuel c board = Ret board' →
  board' = board
  ∨ ∃ action, _history board' = _history board ++ [action]
              ∧ Board_undo board' = Ret board.
Proof.
  destruct c as [f t|]; simpl.
  - unfold Board_pour, Board_apply_action, Action_apply. simpl.
    destruct (PourAction_apply fuel (PourAction_init f t) board)
      as [[[r self'] board1]| |] eqn:Happly; [|done..].
    simpl. destruct r; simpl; intros [= <-].
    + destruct (PourAction_apply_fields fuel (PourAction_init f t) board true
                  self' board1 eq_refl Happly) as (_ & Hh & _).
      right. exists (Pour self'). split; [by rewrite <- Hh|].
      rewrite (Board_undo_snoc _ (_history board1) (Pour self')) by done.
      simpl.
      replace (set_history _ _) with board1 by (by destruct board1).
      by apply (PourAction_apply_undo fuel (PourAction_init f t) board true).
    + left.
      by destruct (PourAction_apply_false fuel (PourAction_init f t) board
                     self' board1 eq_refl Happly).
  - unfold Board_add_empty_vial, Board_apply_action. simpl. intros [= <-].
    right. exists AddEmptyVial. split; [done|].
    erewrite Board_undo_snoc by done. simpl.
    unfold AddEmptyVialAction_undo. simpl.
    destruct (slots board ++ [fresh []]) eqn:Happ.
    { by apply app_eq_nil in Happ as [_ ?]. }
    rewrite <- Happ, removelast_last. by destruct board.
Qed.

Lemma rewinds_call fuel c board board' board0 :
  rewinds board board0 → Board_call fuel c board = Ret board' →
  rewinds board' board0.
Proof.
  intros Hrew Hcall.
  destruct (Board_call_undo _ _ _ _ Hcall) as [->|(action & Hh & Hundo)]; [done|].
  by eapply rewinds_step.
Qed.

Lemma rewinds_run_calls fuel calls board board' board0 :
  rewinds board board0 → run_calls fuel calls board = Ret board' →
  rewinds board' board0.
Proof.
  revert board. induction calls as [|c calls IH]; intros board Hrew; simpl.
  - by intros [= <-].
  - destruct (Board_call fuel c board) as [board1| |] eqn:Hcall; [|done..].
    simpl. apply IH. by eapply rewinds_call.
Qed.

(** Undoing until the history is empty walks all the way back. *)
Lemma rewinds_undo_until_empty board' board fuel :
  rewinds board' board → _history board = [] →
  length (_history board') ≤ fuel →
  undo_until_empty fuel board' = Ret board.
Proof.
  intros Hrew Hempty. revert fuel.
  induction Hrew as [board|board' board'' board action Hh Hundo Hrew IH];
    intros fuel Hfuel.
  - destruct fuel; simpl; by rewrite Hempty.
  - rewrite Hh, length_app in Hfuel. simpl in Hfuel.
    destruct fuel as [|fuel]; [lia|]. simpl.
    rewrite bool_decide_eq_false_2 by (rewrite Hh, length_app; simpl; lia).
    rewrite Hundo. simpl. apply IH; [done | lia].
Qed.

Lemma length_vial_le_units (vs : list (list Z)) i v :
  vs !! i = Some v → length v ≤ length (concat vs).
Proof.
  revert i. induction vs as [|w vs IH]; intros i Hi; [done|].
  simpl. rewrite length_app. destruct i as [|i]; simpl in Hi.
  - injection Hi as ->. lia.
  - specialize (IH i Hi). lia.
Qed.

Lemma added_snoc (h : list Action) action :
  length (filter (λ action, is_add action = true) (h ++ [action]))
  = length (filter (λ action, is_add action = true) h)
    + (if is_add action then 1 else 0).
Proof. rewrite filter_app, length_app. by destruct action. Qed.

Lemma distinct_objects_backs board board' :
  back <$> slots board' = back <$> slots board →
  distinct_objects board → distinct_objects board'.
Proof.
  rewrite !distinct_objects_roots. unfold root. intros Hb H j Hj.
  rewrite Hb. apply H.
  apply (f_equal length) in Hb. rewrite !length_fmap in Hb. lia.
Qed.

Lemma distinct_objects_once board r :
  distinct_objects board → r < length (slots board) → once (slots board) r.
Proof.
  rewrite distinct_objects_roots. intros H Hr. split_and!; [done | by apply H|].
  intros j Hj Hroot. by rewrite H in Hroot.
Qed.

Lemma vial_ref_once board (index : Z) r :
  distinct_objects board → vial_ref (slots board) index = Some r →
  once (slots board) r.
Proof.
  intros Hd Hr. destruct (vial_ref_Some _ _ _ Hr) as (i & _ & _ & _ & Hlt).
  by apply distinct_objects_once.
Qed.

(** On a board whose vials are all different list objects, a returning
    call keeps them different and keeps the units and the capacity; on
    every board the number of vials keeps step with the
    [AddEmptyVialAction]s of the history. *)
Lemma Board_call_units fuel c board board' :
  Board_call fuel c board = Ret board' →
  vial_size board' = vial_size board
  ∧ length (vials board') + added_vials board
    = length (vials board) + added_vials board'
  ∧ length (vials board')
    = match c with
      | CallPour _ _ => length (vials board)
      | CallAddEmptyVial => S (length (vials board))
      end
  ∧ (distinct_objects board →
     distinct_objects board' ∧ all_units board' ≡ₚ all_units board).
Proof.
  destruct c as [f t|]; simpl.
  - unfold Board_pour, Board_apply_action, Action_apply. simpl.
    destruct (PourAction_apply fuel (PourAction_init f t) board)
      as [[[r self'] board1]| |] eqn:Happly; [|done..].
    destruct (PourAction_apply_fields fuel (PourAction_init f t) board r self' board1
                eq_refl Happly) as (Hs & Hh & Hbacks).
    destruct (PourAction_apply_Ret fuel (PourAction_init f t) board r self' board1
                eq_refl Happly)
      as (fi & ti & src & dst & k & src' & color & Hfi & Hti & Hsrc & Hdst
          & Hsplit & Hk & _ & _ & Hb).
    assert (length (vials board1) = length (vials board)) as Hv.
    { rewrite Hb, !length_vials. unfold poured. simpl. by rewrite !length_write. }
    assert (distinct_objects board → all_units board1 ≡ₚ all_units board) as Hu.
    { intros Hd. destruct Hk as [->|[Hne _]].
      - simpl in Hsplit. rewrite app_nil_r in Hsplit. subst src'.
        by rewrite Hb, (poured_zero _ _ _ _ _ _ Hsrc Hdst).
      - rewrite Hsplit in Hsrc.
        destruct (poured_units_preserved board fi ti src' dst k color Hne
                    (vial_ref_once _ _ _ Hd Hfi) (vial_ref_once _ _ _ Hd Hti)
                    Hsrc Hdst) as (Hperm & _).
        by rewrite Hb. }
    simpl. destruct r; simpl; intros [= <-]; split_and!; try done.
    + unfold added_vials. simpl. rewrite Hh, added_snoc. simpl.
      unfold vials in *. simpl. lia.
    + intros Hd. split; [|by apply Hu].
      by apply (distinct_objects_backs board).
    + unfold added_vials. rewrite Hh. lia.
    + intros Hd. split; [|by apply Hu].
      by apply (distinct_objects_backs board).
  - unfold Board_add_empty_vial, Board_apply_action. simpl. intros [= <-].
    unfold all_units, added_vials, vials. simpl.
    rewrite view_app_fresh, concat_app, length_app, added_snoc. simpl.
    rewrite app_nil_r. split_and!; [done | lia | lia |].
    intros Hd. split; [|done].
    by apply (distinct_objects_add board []).
Qed.

(** Valid calls on a board whose vials are all different list objects
    return, given one unit of fuel more than there are units on the
    board. *)
Lemma Board_pour_returns fuel (f t : Z) board :
  valid_index board f → valid_index board t → ¬ same_object board f t →
  length (all_units board) < fuel →
  ∃ board', Board_call fuel (CallPour f t) board = Ret board'.
Proof.
  intros Hf Ht Hne Hfuel.
  destruct (PourAction_apply_returns board f t Hf Ht Hne) as [[[r self'] board1] Hret].
  destruct (valid_index_lookup board f Hf) as (_ & _ & Hsrc).
  simpl. rewrite (Board_pour_of_apply fuel f t board r self' board1); [by eexists|].
  apply Hret.
  pose proof (length_vial_le_units _ _ _ Hsrc). unfold all_units in Hfuel. lia.
Qed.

Lemma distinct_objects_differ board (f t : Z) :
  distinct_objects board → valid_index board f → valid_index board t →
  f ≠ t → ¬ same_object board f t.
Proof. intros Hd Hf Ht Hne Hsame. apply Hne. by apply (Hd t Ht f Hf). Qed.

Lemma run_calls_returns fuel calls board :
  distinct_objects board →
  calls_valid (length (vials board)) calls →
  length (all_units board) < fuel →
  ∃ board', run_calls fuel calls board = Ret board'.
Proof.
  revert board.
  induction calls as [|c calls IH]; intros board Hd Hvalid Hfuel; simpl.
  - by eexists.
  - assert (∃ board1, Board_call fuel c board = Ret board1) as [board1 Hcall].
    { destruct c as [f t|]; [|by eexists].
      destruct Hvalid as (Hf & Ht & Hne & _).
      apply Board_pour_returns; [done..| |done].
      by apply distinct_objects_differ. }
    rewrite Hcall. simpl.
    destruct (Board_call_units _ _ _ _ Hcall) as (_ & _ & Hv & Hdu).
    destruct (Hdu Hd) as [Hd' Hu].
    apply IH; [done| |by rewrite (Permutation_length Hu)].
    rewrite Hv. destruct c; simpl in Hvalid; [|done].
    by destruct Hvalid as (_ & _ & _ & ?).
Qed.

(** C3: on a board constructed with the default empty history, after any
    sequence of [Board.pour] and [Board.add_empty_vial] calls that returned,
    calling [Board.undo] until the history is empty returns and gives back
    the board exactly as it was before the first call; and on a board whose
    vials are all different list objects, a sequence whose pours name two
    valid, different vials does return. *)
Theorem C3_undo_all_restores calls board :
  _history board = [] →
  (∀ fuel board',
     run_calls fuel calls board = Ret board' →
     ∀ fuel', length (_history board') ≤ fuel' →
       undo_until_empty fuel' board' = Ret board)
  ∧ (distinct_objects board → calls_valid (length (vials board)) calls →
     ∀ fuel, length (all_units board) < fuel →
       ∃ board', run_calls fuel calls board = Ret board').
Proof.
  intros Hempty. split.
  - intros fuel board' Hrun fuel' Hfuel.
    apply rewinds_undo_until_empty; [|done..].
    eapply rewinds_run_calls; [apply rewinds_refl | done].
  - intros Hd Hvalid fuel Hfuel. by apply run_calls_returns.
Qed.

Lemma C3_undo_all_restores_witness :
  undo_until_empty 3
    (mkBoard 4 (fresh <$> [[]; []; [1; 1; 1]; []]%Z)
       [Pour (applied_pour 0 2 2); AddEmptyVial; Pour (applied_pour 1 2 1)])
  = Ret (Board_init 4 [[1; 1]; [1]; []]%Z).
Proof.
  apply (proj1 (C3_undo_all_restores
                  [CallPour 0 2; CallAddEmptyVial; CallPour 3 0; CallPour 1 2]
                  (Board_init 4 [[1; 1]; [1]; []]%Z) eq_refl) 5).
  - reflexivity.
  - simpl. lia.
Defined.

(** The same on a board that holds one list object at the indices 1 and 2:
    the pour into vial 1 shows at index 2, and undoing gives the board
    back. *)
Example undo_all_with_shared_vial :
  (run_calls 5 [CallPour 0 1; CallAddEmptyVial]
     (Board_of_slots 4 [fresh [1%Z]; fresh []; shared 1])
   ≫= undo_until_empty 2)
  = Ret (Board_of_slots 4 [fresh [1%Z]; fresh []; shared 1]).
Proof. reflexivity. Qed.

(** ** The capacity invariant *)

Lemma Board_undo_empty board : _history board = [] → Board_undo board = Ret board.
Proof. intros H. unfold Board_undo. by rewrite H. Qed.

(** The contents of a list object that an index holds are read at that
    index. *)
Lemma vial_ref_view ss (index : Z) r v :
  vial_ref ss index = Some r → objects ss !! r = Some v →
  ∃ i, view ss !! i = Some v.
Proof.
  intros Href Hv. destruct (vial_ref_Some _ _ _ Href) as (i & _ & Hi & -> & _).
  exists i. rewrite view_lookup by done.
  rewrite (vial_at_objects _ _ Hi) in Hv. by injection Hv as ->.
Qed.

(** A returning pour keeps every vial within capacity: a unit is appended
    only below [vial_size]. *)
Lemma PourAction_apply_capacity fuel self board r self' board' :
  _qty_moved self = 0 →
  PourAction_apply fuel self board = Ret (r, self', board') →
  capacity_ok board → capacity_ok board'.
Proof.
  intros Hq Hret Hcap.
  destruct (PourAction_apply_Ret _ _ _ _ _ _ Hq Hret)
    as (fi & ti & src & dst & k & src' & color & Hfi & Hti & Hsrc & Hdst
        & Hsplit & Hk & _ & _ & ->).
  unfold capacity_ok, poured, vials in *. simpl.
  destruct (vial_ref_view _ _ _ _ Hfi Hsrc) as [i Hi].
  destruct (vial_ref_view _ _ _ _ Hti Hdst) as [j Hj].
  pose proof (Forall_lookup_1 _ _ _ _ Hcap Hi) as Hs. simpl in Hs.
  pose proof (Forall_lookup_1 _ _ _ _ Hcap Hj) as Hd. simpl in Hd.
  rewrite Hsplit, length_app in Hs.
  apply Forall_view_write; [apply Forall_view_write; [done|] | lia].
  rewrite length_app, length_replicate.
  destruct Hk as [->|[_ Hroom]]; lia.
Qed.

Lemma Board_call_capacity fuel c board board' :
  (0 ≤ vial_size board)%Z → capacity_ok board →
  Board_call fuel c board = Ret board' →
  capacity_ok board' ∧ vial_size board' = vial_size board.
Proof.
  intros Hsize Hcap. destruct c as [f t|]; simpl.
  - unfold Board_pour, Board_apply_action, Action_apply. simpl.
    destruct (PourAction_apply fuel (PourAction_init f t) board)
      as [[[r self'] board1]| |] eqn:Happly; [|done..].
    pose proof (PourAction_apply_capacity fuel (PourAction_init f t) board
                  r self' board1 eq_refl Happly Hcap) as Hcap1.
    destruct (PourAction_apply_fields fuel (PourAction_init f t) board
                r self' board1 eq_refl Happly) as (Hsz & _ & _).
    simpl. destruct r; simpl; intros [= <-]; by split.
  - unfold Board_add_empty_vial, Board_apply_action. simpl. intros [= <-].
    split; [|done]. unfold capacity_ok, vials in *. simpl.
    rewrite view_app_fresh.
    apply Forall_app. split; [done|]. apply Forall_singleton. simpl. lia.
Qed.

(** What holds of every reachable board. *)
Lemma reachable_sound board0 board :
  _history board0 = [] → (0 ≤ vial_size board0)%Z → capacity_ok board0 →
  reachable board0 board →
  capacity_ok board ∧ vial_size board = vial_size board0 ∧ sound board.
Proof.
  intros Hempty Hsize Hcap0 Hreach.
  induction Hreach as [|fuel c board board' _ IH Hcall|board board' _ IH Hundo].
  - split_and!; [done..|]. by apply sound_nil.
  - destruct IH as (Hcap & Hsz & Hsound).
    destruct (Board_call_capacity fuel c board board') as [Hcap' Hsz'];
      [lia | done..|].
    split_and!; [done | congruence |].
    destruct (Board_call_undo _ _ _ _ Hcall) as [->|(action & Hh & Hback)]; [done|].
    by eapply sound_snoc.
  - destruct IH as (Hcap & Hsz & Hsound).
    destruct Hsound as [board Hnil|board board'' action Hh Hback Hcap'' Hsz'' Hsound].
    + rewrite (Board_undo_empty _ Hnil) in Hundo. injection Hundo as <-.
      split_and!; [done..|]. by apply sound_nil.
    + rewrite Hback in Hundo. injection Hundo as <-.
      split_and!; [done | congruence | done].
Qed.




Example load_scenario :
  Board_of_puzzle <$>
    load_board_data (JObject [("vial_size", JInt 4);
       ("vials", JArray [JArray [JInt 1; JInt 1]; JArray [JInt 1]; JArray []])])
  = Ret (Some (Board_init 4 [[1; 1]; [1]; []]%Z)).
Proof. reflexivity. Qed.

(** ** The puzzle loader *)

Lemma check_units_cases units :
  (check_units units = Ret tt ∧ Forall (λ unit, is_int unit = true) units)
  ∨ (check_units units = Raise (ValueError msg_unit_int)
     ∧ ¬ Forall (λ unit, is_int unit = true) units).
Proof.
  induction units as [|unit units IH]; simpl.
  - left. by split.
  - destruct (is_int unit) eqn:Hint; simpl.
    + destruct IH as [[-> Hall]|[-> Hnot]]; [left | right]; split; try done.
      * by constructor.
      * intros H. apply Forall_cons in H as [_ H]. by apply Hnot.
    + right. split; [done|]. intros H. apply Forall_cons in H as [H _]. congruence.
Qed.

Lemma len_gt_numeric n size :
  numeric size = true → ∃ b, len_gt n size = Ret b.
Proof. destruct size as [| | |[| |]| | |]; simpl; try done; eauto. Qed.

Lemma len_gt_not_numeric n size :
  numeric size = false → len_gt n size = Raise TypeError.
Proof. by destruct size as [| | |[| |]| | |]. Qed.

(** The loop over the vials returns when all vials are good, and raises
    otherwise; with a numeric [vial_size] what it raises is a [ValueError]. *)
Lemma check_vials_cases size vs :
  (check_vials size vs = Ret tt ∧ Forall (good_vial size) vs)
  ∨ (∃ e, check_vials size vs = Raise e
          ∧ (numeric size = true → ∃ msg, e = ValueError msg))
     ∧ ¬ Forall (good_vial size) vs.
Proof.
  induction vs as [|vial vs IH]; simpl.
  - left. by split.
  - assert (Hbad : ¬ good_vial size vial → ¬ Forall (good_vial size) (vial :: vs)).
    { intros Hbad H. apply Forall_cons in H as [H _]. by apply Hbad. }
    destruct vial as [| | | | |units|];
      try (right; split;
           [exists (ValueError msg_vial_array); split; [done | eauto]
           |apply Hbad; by intros (units & ? & _)]).
    destruct (len_gt (length units) size) as [too_long| |] eqn:Hlen; simpl.
    + destruct too_long.
      { right. split; [exists (ValueError msg_too_many); split; [done | eauto]|].
        apply Hbad. intros (units' & [= <-] & Hlen' & _). congruence. }
      destruct (check_units_cases units) as [[-> Hunits]|[-> Hunits]]; simpl.
      * destruct IH as [[-> Hall]|[(e & -> & He) Hnot]].
        -- left. split; [done|]. constructor; [|done]. by exists units.
        -- right. split; [by exists e|].
           intros H. apply Forall_cons in H as [_ H]. by apply Hnot.
      * right. split; [exists (ValueError msg_unit_int); split; [done | eauto]|].
        apply Hbad. by intros (units' & [= <-] & _ & Hall).
    + right. split.
      * exists e. split; [done|]. intros Hnum.
        destruct (len_gt_numeric (length units) size Hnum) as [b Hb]. congruence.
      * apply Hbad. intros (units' & [= <-] & Hlen' & _). congruence.
    + by destruct size as [| | |[| |]| | |].
Qed.

(** With an integer [vial_size], of any sign, a good vial is an array of at
    most [vial_size] units that are all [int]s. *)
Lemma good_vial_int (z : Z) vial :
  good_vial (JInt z) vial
  ↔ ∃ units, vial = JArray units ∧ (Z.of_nat (length units) ≤ z)%Z
             ∧ Forall (λ unit, is_int unit = true) units.
Proof.
  unfold good_vial. simpl. split; intros (units & -> & Hlen & Hall);
    exists units; split_and!; try done.
  - injection Hlen as Hlen. apply bool_decide_eq_false in Hlen. lia.
  - f_equal. apply bool_decide_eq_false. lia.
Qed.

(** C8 (as stated) fails: [load_board] never looks at what [vial_size] is
    beyond comparing lengths with it.  Records whose [vial_size] is zero,
    negative, fractional or a string are accepted, and so is a vial holding
    the JSON value [true], which is an [int] for [isinstance]. *)
Lemma C8_load_board_counterexample :
  load_board_data (JObject [("vial_size", JInt 0); ("vials", JArray [JArray []])])
  = Ret (mkPuzzle (JInt 0) [JArray []])
  ∧ load_board_data (JObject [("vial_size", JInt (-1)); ("vials", JArray [])])
    = Ret (mkPuzzle (JInt (-1)) [])
  ∧ load_board_data (JObject [("vial_size", JFloat (FFinite (5 # 2)));
                              ("vials", JArray [JArray [JInt 1; JInt 2]])])
    = Ret (mkPuzzle (JFloat (FFinite (5 # 2))) [JArray [JInt 1; JInt 2]])
  ∧ load_board_data (JObject [("vial_size", JString "four"); ("vials", JArray [])])
    = Ret (mkPuzzle (JString "four") [])
  ∧ load_board_data (JObject [("vial_size", JInt 1);
                              ("vials", JArray [JArray [JBool true]])])
    = Ret (mkPuzzle (JInt 1) [JArray [JBool true]]).
Proof. by split_and!. Qed.

(** C8 (amended): for every input line that parses to a record,
    [load_board] raises a [ValueError] with its message when the key
    [vial_size] is missing, when the key [vials] is missing, and when
    [vials] is not an array.  Otherwise it returns exactly when every
    element of [vials] is an array that [len(vial) > vial_size] does not
    find too long and whose units are all [int]s ([bool]s included), and it
    raises when that fails, a [ValueError] if [vial_size] is a number.
    Nothing else is asked of [vial_size]: with an integer [vial_size] of any
    sign the record is accepted exactly when every vial is an array of at
    most [vial_size] [int]s, and with a [vial_size] that is not a number it
    is accepted exactly when there are no vials. *)
Theorem C8_load_board_validation json_loads line members :
  json_loads line = inl (JObject members) →
  (dict_get "vial_size" members = None →
   load_board json_loads line = Raise (ValueError msg_vial_size_required))
  ∧ (∀ size, dict_get "vial_size" members = Some size →
     (dict_get "vials" members = None →
      load_board json_loads line = Raise (ValueError msg_vials_required))
     ∧ (∀ v, dict_get "vials" members = Some v → is_array v = false →
        load_board json_loads line = Raise (ValueError msg_vials_array))
     ∧ (∀ vs, dict_get "vials" members = Some (JArray vs) →
        (load_board json_loads line = Ret (mkPuzzle size vs)
         ↔ Forall (good_vial size) vs)
        ∧ (¬ Forall (good_vial size) vs →
           ∃ e, load_board json_loads line = Raise e
                ∧ (numeric size = true → ∃ msg, e = ValueError msg))
        ∧ (∀ z, size = JInt z →
           (load_board json_loads line = Ret (mkPuzzle size vs)
            ↔ Forall (λ vial, ∃ units, vial = JArray units
                                ∧ (Z.of_nat (length units) ≤ z)%Z
                                ∧ Forall (λ unit, is_int unit = true) units) vs))
        ∧ (numeric size = false →
           (load_board json_loads line = Ret (mkPuzzle size vs) ↔ vs = [])))).
Proof.
  intros Hparse. unfold load_board. rewrite Hparse.
  unfold load_board_data. simpl. split.
  { intros Hnone. by rewrite Hnone. }
  intros size Hsize. rewrite Hsize. simpl. split_and!.
  - intros Hnone. by rewrite Hnone.
  - intros v Hv Harr. rewrite Hv. simpl. by destruct v.
  - intros vs Hvs. rewrite Hvs. simpl.
    assert (Hiff : (check_vials size vs ≫= λ _, Ret (mkPuzzle size vs))
                   = Ret (mkPuzzle size vs) ↔ Forall (good_vial size) vs).
    { destruct (check_vials_cases size vs) as [[-> Hall]|[(e & -> & _) Hnot]];
        simpl; [done|]. split; [done | by intros H]. }
    split_and!; [exact Hiff| | |].
    + intros Hnot.
      destruct (check_vials_cases size vs) as [[_ Hall]|[(e & -> & He) _]];
        [done|]. by exists e.
    + intros z ->. rewrite Hiff. apply Forall_proper; [|done].
      intros vial. apply good_vial_int.
    + intros Hnum. rewrite Hiff. split; [|by intros ->].
      destruct vs as [|vial vs]; [done|]. intros Hall.
      apply Forall_cons in Hall as [(units & _ & Hlen & _) _].
      by rewrite (len_gt_not_numeric _ _ Hnum) in Hlen.
Qed.

Lemma C8_load_board_validation_witness :
  load_board (λ _, inl (JObject [("vials", JArray [])])) "{}"
  = Raise (ValueError msg_vial_size_required).
Proof.
  apply (proj1 (C8_load_board_validation
                  (λ _, inl (JObject [("vials", JArray [])])) "{}"
                  [("vials", JArray [])] eq_refl)).
  reflexivity.
Defined.

(** * More of the code: proofs *)

(** ** Calls and their undo, on any history *)

(** X1: A call that returned and is followed at once by [Board.undo] leaves the
    board as it was before the call, whatever the history was: either the
    call recorded an action, and [undo] takes it back, or the call was a
    pour that moved nothing and recorded nothing, and then the board is
    already the one before the call. *)
Theorem call_then_undo fuel c board board' :
  Board_call fuel c board = Ret board' →
  (board' = board ∧ c ≠ CallAddEmptyVial)
  ∨ (length (_history board') = S (length (_history board))
     ∧ Board_undo board' = Ret board).
Proof.
  intros Hcall.
  destruct (Board_call_undo _ _ _ _ Hcall) as [->|(action & Hh & Hundo)].
  - left. split; [done|]. intros ->. simpl in Hcall.
    unfold Board_add_empty_vial, Board_apply_action in Hcall. simpl in Hcall.
    injection Hcall as Hcall. apply (f_equal _history) in Hcall.
    apply (f_equal length) in Hcall. simpl in Hcall.
    rewrite length_app in Hcall. simpl in Hcall. lia.
  - right. split; [|done]. rewrite Hh, length_app. simpl. lia.
Qed.

Lemma call_then_undo_witness :
  (mkBoard 4 (fresh <$> [[]; [1]; [1; 1]]%Z) [Pour (applied_pour 0 2 2)]
   = Board_init 4 [[1; 1]; [1]; []]%Z
   ∧ CallPour 0 2 ≠ CallAddEmptyVial)
  ∨ (length (_history (mkBoard 4 (fresh <$> [[]; [1]; [1; 1]]%Z)
                         [Pour (applied_pour 0 2 2)]))
     = S (length (_history (Board_init 4 [[1; 1]; [1]; []]%Z)))
     ∧ Board_undo (mkBoard 4 (fresh <$> [[]; [1]; [1; 1]]%Z)
                     [Pour (applied_pour 0 2 2)])
       = Ret (Board_init 4 [[1; 1]; [1]; []]%Z)).
Proof.
  apply (call_then_undo 3 (CallPour 0 2) (Board_init 4 [[1; 1]; [1]; []]%Z)).
  reflexivity.
Defined.

(** ** What every reachable board inherits *)

Section retraces.
Variable P : Board → Prop.
Hypothesis P_call : ∀ fuel c board board',
  P board → Board_call fuel c board = Ret board' → P board'.

Lemma reachable_retraces board0 board :
  _history board0 = [] → P board0 → reachable board0 board →
  P board ∧ retraces P board.
Proof.
  intros Hempty HP0 Hreach.
  induction Hreach as [|fuel c board board' _ IH Hcall|board board' _ IH Hundo].
  - split; [done|]. by apply retraces_nil.
  - destruct IH as [HP Htr]. split; [by eapply P_call|].
    destruct (Board_call_undo _ _ _ _ Hcall) as [->|(action & Hh & Hback)]; [done|].
    by eapply retraces_snoc.
  - destruct IH as [HP Htr].
    destruct Htr as [board Hnil|board board'' action Hh Hback HP'' Htr].
    + rewrite (Board_undo_empty _ Hnil) in Hundo. injection Hundo as <-.
      split; [done|]. by apply retraces_nil.
    + rewrite Hback in Hundo. by injection Hundo as <-.
Qed.
End retraces.

(** X2: The invariant principle of the undo history.  On a board that returning
    calls of [pour], [add_empty_vial] and [undo] produced from a board with
    an empty history, [Board.undo] returns, and a property of the first
    board that [pour] and [add_empty_vial] preserve holds of the board and
    of what [undo] returns: [undo] needs no proof of its own. *)
Theorem reachable_invariant (P : Board → Prop) board0 board :
  (∀ fuel c b b', P b → Board_call fuel c b = Ret b' → P b') →
  _history board0 = [] → P board0 → reachable board0 board →
  P board ∧ ∃ board', Board_undo board = Ret board' ∧ P board'.
Proof.
  intros Hcall Hempty HP0 Hreach.
  destruct (reachable_retraces P Hcall board0 board Hempty HP0 Hreach)
    as [HP Htr].
  split; [done|].
  destruct Htr as [board Hnil|board board'' action Hh Hback HP'' Htr].
  - exists board. split; [by apply Board_undo_empty | done].
  - by exists board''.
Qed.

(** The principle on the board that [pour(0, 2)], [add_empty_vial()],
    [pour(1, 3)] and one [undo()] produce from the scenario's board, with
    the capacity invariant for [P]: the [undo] that follows takes the added
    vial away. *)
Lemma reachable_invariant_witness :
  ((0 ≤ vial_size (mkBoard 4 (fresh <$> [[]; [1]; [1; 1]; []]%Z)
                     [Pour (applied_pour 0 2 2); AddEmptyVial]))%Z
   ∧ capacity_ok (mkBoard 4 (fresh <$> [[]; [1]; [1; 1]; []]%Z)
                    [Pour (applied_pour 0 2 2); AddEmptyVial]))
  ∧ ∃ board',
      Board_undo (mkBoard 4 (fresh <$> [[]; [1]; [1; 1]; []]%Z)
                    [Pour (applied_pour 0 2 2); AddEmptyVial])
      = Ret board'
      ∧ (0 ≤ vial_size board')%Z ∧ capacity_ok board'.
Proof.
  apply (reachable_invariant (λ b, (0 ≤ vial_size b)%Z ∧ capacity_ok b)
           (Board_init 4 [[1; 1]; [1]; []]%Z)).
  - intros fuel c b b' [Hsize Hcap] Hcall.
    destruct (Board_call_capacity fuel c b b' Hsize Hcap Hcall) as [Hcap' Hsz].
    split; [lia | done].
  - reflexivity.
  - split; [simpl; lia|]. unfold capacity_ok. simpl.
    repeat constructor; simpl; lia.
  - apply (reachable_undo _
             (mkBoard 4 (fresh <$> [[]; []; [1; 1]; [1]]%Z)
                [Pour (applied_pour 0 2 2); AddEmptyVial; Pour (applied_pour 1 3 1)]));
      [|reflexivity].
    apply (reachable_call _ 3 (CallPour 1 3)
             (mkBoard 4 (fresh <$> [[]; [1]; [1; 1]; []]%Z)
                [Pour (applied_pour 0 2 2); AddEmptyVial])); [|reflexivity].
    apply (reachable_call _ 0 CallAddEmptyVial
             (mkBoard 4 (fresh <$> [[]; [1]; [1; 1]]%Z)
                [Pour (applied_pour 0 2 2)])); [|reflexivity].
    apply (reachable_call _ 3 (CallPour 0 2) (Board_init 4 [[1; 1]; [1]; []]%Z));
      [apply reachable_init | reflexivity].
Defined.

(** ** [Board.get_max_color] and the units *)

Lemma max_color_vial_foldl ret vial : max_color_vial ret vial = foldl Z.max ret vial.
Proof. revert ret. induction vial as [|obj vial IH]; intros ret; simpl; auto. Qed.

Lemma max_color_loop_foldl ret vs :
  max_color_loop ret vs = foldl Z.max ret (concat vs).
Proof.
  revert ret. induction vs as [|vial vs IH]; intros ret; simpl; [done|].
  by rewrite IH, (max_color_vial_foldl ret vial), foldl_app.
Qed.

Lemma foldl_max_spec ret (l : list Z) :
  (ret ≤ foldl Z.max ret l)%Z
  ∧ (∀ x, x ∈ l → (x ≤ foldl Z.max ret l)%Z)
  ∧ (foldl Z.max ret l = ret ∨ foldl Z.max ret l ∈ l).
Proof.
  revert ret. induction l as [|y l IH]; intros ret; simpl.
  - split_and!; [lia| |by left]. intros x Hx. by apply elem_of_nil in Hx.
  - destruct (IH (Z.max ret y)) as (Hge & Hall & Hin). split_and!.
    + lia.
    + intros x Hx. apply elem_of_cons in Hx as [->|Hx]; [lia | by apply Hall].
    + destruct Hin as [Heq|Hin]; [|right; by right].
      rewrite Heq. destruct (Z.max_spec ret y) as [[_ ->]|[_ ->]];
        [right; by left | by left].
Qed.

Lemma max_color_bounds board :
  (0 ≤ Board_get_max_color board)%Z
  ∧ (∀ x, x ∈ all_units board → (x ≤ Board_get_max_color board)%Z)
  ∧ (Board_get_max_color board = 0%Z
     ∨ Board_get_max_color board ∈ all_units board).
Proof.
  unfold Board_get_max_color, all_units. rewrite max_color_loop_foldl.
  apply foldl_max_spec.
Qed.

(** X4: What [get_max_color] returns is never negative, bounds every unit on the
    board, and is [0] or one of the units: it is the greatest unit only when
    some unit is not negative. *)
Theorem get_max_color_spec board :
  (0 ≤ Board_get_max_color board)%Z
  ∧ (∀ x, x ∈ all_units board → (x ≤ Board_get_max_color board)%Z)
  ∧ (Board_get_max_color board = 0%Z
     ∨ Board_get_max_color board ∈ all_units board).
Proof. apply max_color_bounds. Qed.

(** Boards with the same units, in any arrangement, have the same
    [get_max_color]. *)
Lemma get_max_color_perm board board' :
  all_units board' ≡ₚ all_units board →
  Board_get_max_color board' = Board_get_max_color board.
Proof.
  intros Hperm.
  destruct (max_color_bounds board) as (H0 & Hall & Hin).
  destruct (max_color_bounds board') as (H0' & Hall' & Hin').
  apply Z.le_antisymm.
  - destruct Hin' as [->|Hin']; [done|]. apply Hall. by rewrite <- Hperm.
  - destruct Hin as [->|Hin]; [done|]. apply Hall'. by rewrite Hperm.
Qed.

(** X3: Conservation.  On a board whose vials are all different list objects
    and whose history is empty, every board that returning calls of [pour],
    [add_empty_vial] and [undo] produce holds the same multiset of units
    and has the same [vial_size] and the same [get_max_color]; its number
    of vials is the initial number plus the number of
    [AddEmptyVialAction]s in its history; and its vials are again all
    different list objects. *)
Theorem reachable_units board0 board :
  distinct_objects board0 → _history board0 = [] → reachable board0 board →
  all_units board ≡ₚ all_units board0
  ∧ vial_size board = vial_size board0
  ∧ Board_get_max_color board = Board_get_max_color board0
  ∧ Board_get_num_vials board = Board_get_num_vials board0 + added_vials board
  ∧ distinct_objects board.
Proof.
  intros Hd0 Hempty Hreach.
  destruct (reachable_retraces
              (λ b, distinct_objects b
                    ∧ all_units b ≡ₚ all_units board0
                    ∧ vial_size b = vial_size board0
                    ∧ length (vials b) = length (vials board0) + added_vials b))
    with (board0 := board0) (board := board) as [(Hd & Hu & Hs & Hn) _]; try done.
  - intros fuel c b b' (Hd & Hu & Hs & Hn) Hcall.
    destruct (Board_call_units _ _ _ _ Hcall) as (Hs' & Hn' & _ & Hdu).
    destruct (Hdu Hd) as [Hd' Hu'].
    split_and!; [done | by rewrite Hu' | congruence | lia].
  - split_and!; [done..|]. unfold added_vials. rewrite Hempty. simpl. lia.
  - split_and!; [done..| | |done].
    + by apply get_max_color_perm.
    + unfold Board_get_num_vials. by rewrite <- !length_vials.
Qed.

Lemma reachable_units_witness :
  all_units (mkBoard 4 (fresh <$> [[]; []; [1; 1]; [1]]%Z)
               [Pour (applied_pour 0 2 2); AddEmptyVial; Pour (applied_pour 1 3 1)])
  ≡ₚ all_units (Board_init 4 [[1; 1]; [1]; []]%Z)
  ∧ vial_size (mkBoard 4 (fresh <$> [[]; []; [1; 1]; [1]]%Z)
                 [Pour (applied_pour 0 2 2); AddEmptyVial; Pour (applied_pour 1 3 1)])
    = vial_size (Board_init 4 [[1; 1]; [1]; []]%Z)
  ∧ Board_get_max_color
      (mkBoard 4 (fresh <$> [[]; []; [1; 1]; [1]]%Z)
         [Pour (applied_pour 0 2 2); AddEmptyVial; Pour (applied_pour 1 3 1)])
    = Board_get_max_color (Board_init 4 [[1; 1]; [1]; []]%Z)
  ∧ Board_get_num_vials
      (mkBoard 4 (fresh <$> [[]; []; [1; 1]; [1]]%Z)
         [Pour (applied_pour 0 2 2); AddEmptyVial; Pour (applied_pour 1 3 1)])
    = Board_get_num_vials (Board_init 4 [[1; 1]; [1]; []]%Z)
      + added_vials
          (mkBoard 4 (fresh <$> [[]; []; [1; 1]; [1]]%Z)
             [Pour (applied_pour 0 2 2); AddEmptyVial; Pour (applied_pour 1 3 1)])
  ∧ distinct_objects
      (mkBoard 4 (fresh <$> [[]; []; [1; 1]; [1]]%Z)
         [Pour (applied_pour 0 2 2); AddEmptyVial; Pour (applied_pour 1 3 1)]).
Proof.
  apply (reachable_units (Board_init 4 [[1; 1]; [1]; []]%Z));
    [apply distinct_objects_init | reflexivity |].
  apply (reachable_call _ 3 (CallPour 1 3)
           (mkBoard 4 (fresh <$> [[]; [1]; [1; 1]; []]%Z)
              [Pour (applied_pour 0 2 2); AddEmptyVial])); [|reflexivity].
  apply (reachable_call _ 0 CallAddEmptyVial
           (mkBoard 4 (fresh <$> [[]; [1]; [1; 1]]%Z)
              [Pour (applied_pour 0 2 2)])); [|reflexivity].
  apply (reachable_call _ 3 (CallPour 0 2) (Board_init 4 [[1; 1]; [1]; []]%Z));
    [apply reachable_init | reflexivity].
Defined.

(** ** Pours that move everything they can *)

(** Every returning [apply] of a fresh action either changed nothing and
    returned [false], or moved, between two different list objects, as many
    units as the greedy rule allows. *)
Lemma PourAction_apply_Ret_greedy fuel self board r self' board' :
  _qty_moved self = 0 →
  PourAction_apply fuel self board = Ret (r, self', board') →
  (r = false ∧ board' = board)
  ∨ ∃ fi ti src dst k src' color,
      vial_ref (slots board) (_from_index self) = Some fi
      ∧ vial_ref (slots board) (_to_index self) = Some ti
      ∧ fi ≠ ti
      ∧ objects (slots board) !! fi = Some src
      ∧ objects (slots board) !! ti = Some dst
      ∧ last src = Some color ∧ (dst = [] ∨ last dst = Some color)
      ∧ moved_greedily (vial_size board) src dst src' k color
      ∧ 0 < k ∧ 0 < fuel ∧ r = true
      ∧ self' = applied_pour (_from_index self) (_to_index self) k
      ∧ board' = poured board fi ti src' dst k color.
Proof.
  intros Hq Hret. destruct r.
  2:{ left. split; [done|].
      by destruct (PourAction_apply_false _ _ _ _ _ Hq Hret). }
  right.
  destruct (PourAction_apply_Ret _ _ _ _ _ _ Hq Hret)
    as (fi & ti & src & dst & k0 & src0 & color0 & Hfi & Hti & Hsrc & Hdst
        & _ & Hk0 & Hr & _ & _).
  symmetry in Hr. apply bool_decide_eq_true in Hr.
  destruct Hk0 as [->|[Hne _]]; [lia|].
  assert (0 < fuel) as Hfuel.
  { destruct fuel; [|lia]. exfalso. revert Hret.
    unfold PourAction_apply. simpl. rewrite Hfi, Hti.
    repeat (first [ by intros [= ?] | destruct (bool_decide _)
                  | destruct (last _) ]; simpl). }
  destruct (last src) as [color|] eqn:Hcolor.
  2:{ apply last_None in Hcolor.
      rewrite (pour_noop self board fi ti src dst Hfi Hti Hsrc Hdst fuel) in Hret;
        [done | by left]. }
  destruct (decide (dst ≠ [] ∧ last dst ≠ Some color)) as [Hmis|Hmatch].
  { rewrite (pour_noop self board fi ti src dst Hfi Hti Hsrc Hdst fuel) in Hret;
      [done | right; by rewrite Hcolor]. }
  assert (dst = [] ∨ last dst = Some color) as Hmatch'.
  { destruct (decide (dst = [])); [by left | right].
    destruct (decide (last dst = Some color)); [done|]. by destruct Hmatch. }
  destruct (pour_proper self board fi ti src dst Hfi Hti Hsrc Hdst
              (fuel `max` S (length src)) color Hq Hcolor Hmatch' Hne)
    as (k & src' & Hrun & Hgreedy); [lia|].
  rewrite (PourAction_apply_mono _ _ _ _ _ Hret) in Hrun by lia.
  injection Hrun as Hk -> ->. symmetry in Hk. apply bool_decide_eq_true in Hk.
  exists fi, ti, src, dst, k, src', color. by split_and!.
Qed.

Lemma last_app_replicate (dst : list Z) k color :
  0 < k → last (dst ++ replicate k color) = Some color.
Proof.
  intros Hk. destruct k as [|k]; [lia|].
  by rewrite replicate_S_end, app_assoc, last_snoc.
Qed.

(** X5: Pouring twice is pouring once: the same pour, called again on the board
    a returning [Board.pour] left, moves nothing, records nothing and
    returns that board. *)
Theorem pour_twice fuel (f t : Z) board board' :
  Board_pour fuel f t board = Ret board' →
  Board_pour fuel f t board' = Ret board'.
Proof.
  intros Hcall.
  destruct (Board_pour_Ret _ _ _ _ _ Hcall) as (r & self' & board1 & Happly & ->).
  destruct (PourAction_apply_Ret_greedy fuel (PourAction_init f t) board
              r self' board1 eq_refl Happly)
    as [[-> ->]|(fi & ti & src & dst & k & src' & color & Hfi & Hti & Hne
                 & Hsrc & Hdst & Hcolor & Hmatch & (Hsplit & Hcap & Hstop)
                 & Hk & Hfuel & -> & -> & ->)]; [done|].
  simpl in Hfi, Hti. cbn [_from_index _to_index PourAction_init].
  set (b2 := set_history (poured board fi ti src' dst k color)
               (_history (poured board fi ti src' dst k color)
                ++ [Pour (applied_pour f t k)])).
  pose proof (objects_lookup_lt _ _ _ Hsrc).
  pose proof (objects_lookup_lt _ _ _ Hdst).
  assert (Hsrc2 : objects (slots b2) !! fi = Some src').
  { unfold b2, poured. simpl. apply lookup_write_eq.
    by rewrite length_write. }
  assert (Hdst2 : objects (slots b2) !! ti = Some (dst ++ replicate k color)).
  { unfold b2, poured. simpl. rewrite lookup_write_ne by done.
    by apply lookup_write_eq. }
  assert (Hfi2 : vial_ref (slots b2) (_from_index (PourAction_init f t)) = Some fi).
  { unfold b2, poured. simpl. by rewrite !vial_ref_write. }
  assert (Hti2 : vial_ref (slots b2) (_to_index (PourAction_init f t)) = Some ti).
  { unfold b2, poured. simpl. by rewrite !vial_ref_write. }
  pose proof (last_app_replicate dst k color Hk) as Hlast2.
  cut (PourAction_apply fuel (PourAction_init f t) b2
       = Ret (false, applied_pour f t 0, b2)).
  { intros H2. by rewrite (Board_pour_of_apply _ _ _ _ _ _ _ H2). }
  destruct (last src') as [color'|] eqn:Hcolor'.
  2:{ apply last_None in Hcolor'.
      apply (pour_noop (PourAction_init f t) b2 fi ti src' _ Hfi2 Hti2 Hsrc2 Hdst2).
      by left. }
  destruct (decide (color' = color)) as [->|Hother].
  - destruct Hstop as [Hstop|Hstop]; [done|].
    apply (pour_dest_full (PourAction_init f t) b2 fi ti src' _
             Hfi2 Hti2 Hsrc2 Hdst2 fuel color Hcolor'); [by right| |done].
    rewrite length_app, length_replicate. unfold b2. simpl. lia.
  - apply (pour_noop (PourAction_init f t) b2 fi ti src' _ Hfi2 Hti2 Hsrc2 Hdst2).
    right. rewrite Hlast2, Hcolor'. split; [|congruence].
    destruct k; [lia|]. by destruct dst.
Qed.

Lemma pour_twice_witness :
  Board_pour 3 0 2
    (mkBoard 4 (fresh <$> [[]; [1]; [1; 1]]%Z) [Pour (applied_pour 0 2 2)])
  = Ret (mkBoard 4 (fresh <$> [[]; [1]; [1; 1]]%Z) [Pour (applied_pour 0 2 2)]).
Proof.
  apply (pour_twice 3 0 2 (Board_init 4 [[1; 1]; [1]; []]%Z)). reflexivity.
Defined.

(** ** Solved boards *)

Lemma vial_solved_replicate (size : Z) k color :
  Z.of_nat k = size → vial_solved size (replicate k color).
Proof.
  intros Hk. right. rewrite length_replicate. split; [done|].
  intros x y Hx Hy. apply elem_of_replicate in Hx as [-> _].
  by apply elem_of_replicate in Hy as [-> _].
Qed.

(** X6: A solved board stays solved under every returning pour and every
    [add_empty_vial]: a pour on it either moves nothing or moves a whole full
    vial into an empty one.  [add_empty_vial] never changes what
    [is_solved] returns. *)
Theorem solved_after_call fuel c board board' :
  Board_call fuel c board = Ret board' →
  (Board_is_solved board = true → Board_is_solved board' = true)
  ∧ (c = CallAddEmptyVial → Board_is_solved board' = Board_is_solved board).
Proof.
  intros Hcall. destruct c as [f t|]; simpl in Hcall.
  - split; [|done]. intros Hsolved.
    destruct (Board_pour_Ret _ _ _ _ _ Hcall) as (r & self' & board1 & Happly & ->).
    assert (Board_is_solved board1 = true) as Hsolved1.
    2:{ by destruct r. }
    destruct (PourAction_apply_Ret_greedy fuel (PourAction_init f t) board
                r self' board1 eq_refl Happly)
      as [[_ ->]|(fi & ti & src & dst & k & src' & color & Hfi & Hti & Hne
                  & Hsrc & Hdst & Hcolor & _ & (Hsplit & Hcap & Hstop)
                  & Hk & _ & _ & _ & ->)]; [done|].
    unfold Board_is_solved in *. apply is_solved_loop_true in Hsolved.
    apply is_solved_loop_true. unfold poured, vials in *. simpl.
    destruct (vial_ref_view _ _ _ _ Hfi Hsrc) as [i Hi].
    destruct (vial_ref_view _ _ _ _ Hti Hdst) as [j Hj].
    pose proof (Forall_lookup_1 _ _ _ _ Hsolved Hi) as [->|[Hfull Hmono]];
      [done|].
    pose proof (Forall_lookup_1 _ _ _ _ Hsolved Hj) as [->|[Hdfull _]].
    2:{ destruct Hcap as [->|Hcap]; [lia|]. lia. }
    assert (src' = []) as ->.
    { destruct (last src') as [x|] eqn:Hx; [|by apply last_None].
      assert (x = color) as ->.
      { apply Hmono.
        - rewrite Hsplit. apply elem_of_app. left. by apply last_Some_elem_of.
        - by apply last_Some_elem_of. }
      destruct Hstop as [?|Hstop]; [done|].
      rewrite Hsplit, length_app, length_replicate in Hfull. simpl in Hstop.
      destruct src'; [done | simpl in Hfull; lia]. }
    simpl in Hsplit. rewrite Hsplit, length_replicate in Hfull.
    apply Forall_view_write; [apply Forall_view_write; [done|] | by left].
    by apply vial_solved_replicate.
  - unfold Board_add_empty_vial, Board_apply_action in Hcall. simpl in Hcall.
    injection Hcall as <-.
    assert (Board_is_solved board = true
            ↔ Board_is_solved
                (set_history (set_slots board (slots board ++ [fresh []]))
                   (_history board ++ [AddEmptyVial])) = true) as Hiff.
    { unfold Board_is_solved, vials. simpl.
      rewrite view_app_fresh, !is_solved_loop_true, Forall_app.
      split; [intros H; split; [done|] | by intros [H _]].
      apply Forall_singleton. by left. }
    split.
    + apply Hiff.
    + intros _. destruct (Board_is_solved board) eqn:Hb.
      * by apply Hiff.
      * apply not_true_is_false. intros Hb'. by apply Hiff in Hb'.
Qed.

Lemma solved_after_call_witness :
  (Board_is_solved (Board_init 2 [[1; 1]; []; [2; 2]]%Z) = true →
   Board_is_solved (mkBoard 2 (fresh <$> [[]; [1; 1]; [2; 2]]%Z)
                      [Pour (applied_pour 0 1 2)]) = true)
  ∧ (CallPour 0 1 = CallAddEmptyVial →
     Board_is_solved (mkBoard 2 (fresh <$> [[]; [1; 1]; [2; 2]]%Z)
                        [Pour (applied_pour 0 1 2)])
     = Board_is_solved (Board_init 2 [[1; 1]; []; [2; 2]]%Z)).
Proof.
  apply (solved_after_call 3 (CallPour 0 1) (Board_init 2 [[1; 1]; []; [2; 2]]%Z)).
  reflexivity.
Defined.

(** ** The greedy rule *)

(** X16: The greedy rule of [PourAction.apply] on a fresh action, for valid
    indices that hold two different list objects, or one list object that is
    empty or holds at least [vial_size] units:
    - it returns [false] and changes nothing when the source is empty or the
      destination is non-empty with another top unit;
    - otherwise it returns, for every sufficient fuel, after moving [k] units
      of the source's top colour from the source object to the destination
      object, where [k] is what the greedy loop allows, and the returned
      boolean says whether [k] is positive;
    - it leaves the board unchanged whenever it returns [false]. *)
Theorem pour_apply_greedy board (f t : Z) src dst :
  valid_index board f → valid_index board t →
  vials board !! Z.to_nat f = Some src →
  vials board !! Z.to_nat t = Some dst →
  ¬ same_object board f t ∨ src = [] ∨ (vial_size board ≤ Z.of_nat (length src))%Z →
  (src = [] ∨ (dst ≠ [] ∧ last dst ≠ last src) →
   ∀ fuel, PourAction_apply fuel (PourAction_init f t) board
           = Ret (false, applied_pour f t 0, board))
  ∧ (∀ color, last src = Some color → dst = [] ∨ last dst = Some color →
     ∃ k src',
       moved_greedily (vial_size board) src dst src' k color
       ∧ ∀ fuel, length src < fuel →
           PourAction_apply fuel (PourAction_init f t) board
           = Ret (bool_decide (0 < k), applied_pour f t k,
                  poured board (root (slots board) (Z.to_nat f))
                    (root (slots board) (Z.to_nat t)) src' dst k color))
  ∧ (∀ fuel self' board',
       PourAction_apply fuel (PourAction_init f t) board
       = Ret (false, self', board') → board' = board).
Proof.
  intros Hf Ht Hsrc Hdst Hside.
  destruct (valid_index_lookup _ _ Hf) as (Hfi & Hsrc' & Hvf).
  destruct (valid_index_lookup _ _ Ht) as (Hti & Hdst' & Hvt).
  rewrite Hsrc in Hvf. injection Hvf as Hvf. rewrite <- Hvf in Hsrc'.
  rewrite Hdst in Hvt. injection Hvt as Hvt. rewrite <- Hvt in Hdst'.
  clear Hvf Hvt.
  split_and!.
  - intros Hnoop fuel.
    by apply (pour_noop (PourAction_init f t) board _ _ src dst Hfi Hti Hsrc' Hdst').
  - intros color Hcolor Hmatch.
    destruct (decide (root (slots board) (Z.to_nat f)
                      = root (slots board) (Z.to_nat t))) as [Heq|Hne].
    + assert (dst = src) as -> by (rewrite Heq in Hsrc'; congruence).
      destruct Hside as [Hdiff|[->|Hfull]]; [|done|].
      { destruct Hdiff. by apply same_object_root. }
      exists 0, src. split.
      * unfold moved_greedily. simpl. rewrite app_nil_r, Nat.add_0_r. auto.
      * intros fuel Hfuel. rewrite (poured_zero _ _ _ _ _ _ Hsrc' Hdst').
        apply (pour_same_full (PourAction_init f t) board _ _ src src
                 Hfi Hti Hsrc' Hdst' fuel color); [done..|lia].
    + destruct (pour_proper (PourAction_init f t) board _ _ src dst
                  Hfi Hti Hsrc' Hdst' (S (length src)) color
                  eq_refl Hcolor Hmatch Hne)
        as (k & src' & Hrun & Hgreedy); [lia|].
      exists k, src'. split; [done|]. intros fuel Hfuel.
      apply (PourAction_apply_mono _ _ _ _ _ Hrun). lia.
  - intros fuel self' board' Hret.
    by destruct (PourAction_apply_false fuel (PourAction_init f t) board
                   self' board' eq_refl Hret).
Qed.

(** The rule on a board that holds one list object at the indices 1 and
    3: the pour of vial 0 into vial 1 moves both units. *)
Lemma pour_apply_greedy_witness :
  ∃ k src',
    moved_greedily 4 [1; 1]%Z [1%Z] src' k 1%Z
    ∧ ∀ fuel, 2 < fuel →
        PourAction_apply fuel (PourAction_init 0 1)
          (Board_of_slots 4 [fresh [1; 1]%Z; fresh [1%Z]; fresh []; shared 1])
        = Ret (bool_decide (0 < k), applied_pour 0 1 k,
               poured
                 (Board_of_slots 4 [fresh [1; 1]%Z; fresh [1%Z]; fresh []; shared 1])
                 0 1 src' [1%Z] k 1%Z).
Proof.
  refine (proj1 (proj2
    (pour_apply_greedy
       (Board_of_slots 4 [fresh [1; 1]%Z; fresh [1%Z]; fresh []; shared 1])
       0 1 [1; 1]%Z [1%Z] _ _ _ _ _)) 1%Z _ _).
  - by compute.
  - by compute.
  - reflexivity.
  - reflexivity.
  - left. by compute.
  - reflexivity.
  - right. reflexivity.
Defined.

(** ** What [load_board] returns *)

(** A returning [load_board] was given a record with both keys, an array
    under [vials], and only good vials. *)
Lemma load_board_data_Ret data p :
  load_board_data data = Ret p →
  ∃ members,
    data = JObject members
    ∧ dict_get "vial_size" members = Some (puzzle_vial_size p)
    ∧ dict_get "vials" members = Some (JArray (puzzle_vials p))
    ∧ Forall (good_vial (puzzle_vial_size p)) (puzzle_vials p).
Proof.
  unfold load_board_data. intros H.
  destruct data as [| | | |s|items|members]; simpl in H; try done.
  - by destruct (bool_decide _) in H.
  - by destruct (existsb _ items) in H.
  - exists members.
    destruct (dict_get "vial_size" members) as [size|] eqn:Hsize; simpl in H;
      [|done].
    destruct (dict_get "vials" members) as [v|] eqn:Hv; simpl in H; [|done].
    destruct v as [| | | | |vs|]; try done.
    destruct (check_vials_cases size vs) as [[Hchk Hall]|[(e & Hchk & _) _]];
      rewrite Hchk in H; simpl in H; [|done].
    injection H as <-. by split_and!.
Qed.

(** X7: Anything that is not a record is refused, with [TypeError], or, for a
    list or a string in which [vial_size] does not occur, with the
    [ValueError] of the missing key.  A list or a string in which it does
    occur, a number, a boolean and [null] give [TypeError]. *)
Theorem load_board_not_a_record data :
  (∀ members, data ≠ JObject members) →
  (load_board_data data = Raise TypeError
   ∨ load_board_data data = Raise (ValueError msg_vial_size_required))
  ∧ (load_board_data data = Raise TypeError
     ↔ py_contains "vial_size" data ≠ Ret false).
Proof.
  intros Hdata. unfold load_board_data.
  destruct data as [| | | |s|items|members]; simpl;
    try (split; [by left | by split]).
  - destruct (bool_decide _); simpl; split; try (by left); try (by right);
      by split.
  - destruct (existsb _ items); simpl; split; try (by left); try (by right);
      by split.
  - by destruct (Hdata members).
Qed.

Lemma load_board_not_a_record_witness :
  (load_board_data (JArray [JString "vial_size"; JString "vials"]) = Raise TypeError
   ∨ load_board_data (JArray [JString "vial_size"; JString "vials"])
     = Raise (ValueError msg_vial_size_required))
  ∧ (load_board_data (JArray [JString "vial_size"; JString "vials"])
     = Raise TypeError
     ↔ py_contains "vial_size" (JArray [JString "vial_size"; JString "vials"])
       ≠ Ret false).
Proof. apply load_board_not_a_record. intros members. discriminate. Defined.

Lemma good_units_of units :
  Forall (λ unit, is_int unit = true) units →
  ∃ vial, mapM unit_of units = Some vial ∧ length vial = length units.
Proof.
  induction 1 as [|unit units Hint _ (vial & Hvial & Hlen)]; [by exists []|].
  destruct unit; try done; simpl; rewrite Hvial; simpl;
    eexists; (split; [done|]); simpl; by rewrite Hlen.
Qed.

Lemma good_vials_of (z : Z) vs :
  Forall (good_vial (JInt z)) vs →
  ∃ vials, mapM vial_of vs = Some vials
           ∧ length vials = length vs
           ∧ Forall (λ vial, (Z.of_nat (length vial) ≤ z)%Z) vials.
Proof.
  induction 1 as [|v vs Hgood _ (vials & Hvials & Hlen & Hcap)].
  - exists []. by split_and!.
  - apply good_vial_int in Hgood as (units & -> & Hfit & Hints).
    destruct (good_units_of units Hints) as (vial & Hvial & Hvlen).
    exists (vial :: vials). simpl. rewrite Hvial. simpl. rewrite Hvials. simpl.
    split_and!; [done | by rewrite Hlen|]. constructor; [lia | done].
Qed.

(** X8: From the loader to the game.  A puzzle that [load_board] returns with
    an integer [vial_size] is a board with an empty history and every vial
    within capacity; if it has a vial at all, [vial_size] is not negative,
    and then every board that returning calls of [pour], [add_empty_vial]
    and [undo] produce from it has every vial within capacity. *)
Theorem loaded_board_capacity data p (z : Z) :
  load_board_data data = Ret p → puzzle_vial_size p = JInt z →
  ∃ board,
    Board_of_puzzle p = Some board
    ∧ vial_size board = z ∧ _history board = []
    ∧ Board_get_num_vials board = length (puzzle_vials p)
    ∧ capacity_ok board
    ∧ (vials board ≠ [] →
       (0 ≤ z)%Z ∧ ∀ board', reachable board board' → capacity_ok board').
Proof.
  intros Hload Hsize.
  destruct (load_board_data_Ret _ _ Hload) as (members & _ & _ & _ & Hgood).
  rewrite Hsize in Hgood.
  destruct (good_vials_of z _ Hgood) as (vs & Hvs & Hlen & Hcap).
  exists (Board_init z vs). unfold Board_of_puzzle. rewrite Hsize, Hvs.
  unfold capacity_ok. rewrite vials_init.
  split_and!; try done.
  { unfold Board_get_num_vials. simpl. by rewrite length_fmap. }
  intros Hne.
  assert (0 ≤ z)%Z as Hz.
  { destruct vs as [|v vs]; [done|]. apply Forall_cons in Hcap as [Hv _]. lia. }
  split; [done|]. intros board' Hreach.
  assert (capacity_ok (Board_init z vs)) as Hcap0.
  { unfold capacity_ok. by rewrite vials_init. }
  by destruct (reachable_sound (Board_init z vs) board' eq_refl Hz Hcap0 Hreach).
Qed.

Lemma loaded_board_capacity_witness :
  ∃ board,
    Board_of_puzzle
      (mkPuzzle (JInt 4) [JArray [JInt 1; JInt 1]; JArray [JInt 1]; JArray []])
    = Some board
    ∧ vial_size board = 4%Z ∧ _history board = []
    ∧ Board_get_num_vials board = 3
    ∧ capacity_ok board
    ∧ (vials board ≠ [] →
       (0 ≤ 4)%Z ∧ ∀ board', reachable board board' → capacity_ok board').
Proof.
  apply (loaded_board_capacity
           (JObject [("vial_size", JInt 4);
                     ("vials", JArray [JArray [JInt 1; JInt 1]; JArray [JInt 1];
                                       JArray []])])
           (mkPuzzle (JInt 4) [JArray [JInt 1; JInt 1]; JArray [JInt 1]; JArray []])
           4%Z); reflexivity.
Defined.

(** ** Drawing *)

Lemma ansi_fg_lookup (unit : Z) :
  ∃ ansi_fg,
    _ANSI_FG_COLORS !! Z.to_nat (unit `mod` 12) = Some ansi_fg
    ∧ tuple_get _ANSI_FG_COLORS (unit `mod` Z.of_nat (length _ANSI_FG_COLORS))
      = Ret ansi_fg.
Proof.
  pose proof (Z.mod_pos_bound unit 12 ltac:(lia)) as Hb.
  change (Z.of_nat (length _ANSI_FG_COLORS)) with 12%Z. unfold tuple_get.
  rewrite norm_index_valid by (simpl; lia).
  destruct (lookup_lt_is_Some_2 _ANSI_FG_COLORS (Z.to_nat (unit `mod` 12)))
    as [ansi_fg Hfg]; [simpl; lia|].
  exists ansi_fg. by rewrite Hfg.
Qed.

Lemma symbol_lookup (unit : Z) :
  ∃ c,
    String.get (Z.to_nat (unit `mod` 62)) _SYMBOLS = Some c
    ∧ str_get _SYMBOLS (unit `mod` Z.of_nat (String.length _SYMBOLS))
      = Ret (String c EmptyString).
Proof.
  pose proof (Z.mod_pos_bound unit 62 ltac:(lia)) as Hb.
  change (Z.of_nat (String.length _SYMBOLS)) with 62%Z. unfold str_get.
  rewrite norm_index_valid by (change (String.length _SYMBOLS) with 62; lia).
  destruct (String.get (Z.to_nat (unit `mod` 62)) _SYMBOLS) as [c|] eqn:Hc.
  - by exists c.
  - exfalso. revert Hc.
    assert (Z.to_nat (unit `mod` 62) < 62) as Hlt by lia.
    revert Hlt. generalize (Z.to_nat (unit `mod` 62)). intros n Hn.
    do 62 (destruct n as [|n]; [done|]). lia.
Qed.

Lemma draw_unit_returns (unit : Z) : ∃ cell, draw_unit unit = Ret cell.
Proof.
  unfold draw_unit.
  destruct (ansi_fg_lookup unit) as (ansi_fg & _ & ->).
  destruct (symbol_lookup unit) as (c & _ & ->). by eexists.
Qed.

Lemma draw_cells_returns indices vial : ∃ cells, draw_cells indices vial = Ret cells.
Proof.
  induction indices as [|index indices [more IH]]; simpl; [by eexists|].
  destruct (vial !! index) as [unit|].
  - destruct (draw_unit_returns unit) as [cell ->]. simpl. rewrite IH. by eexists.
  - simpl. rewrite IH. by eexists.
Qed.

Lemma draw_vial_Ret (vial_index : Z) (vial : list Z) (size : Z) :
  ∃ printed, draw_vial vial_index vial size = Ret printed.
Proof.
  unfold draw_vial.
  destruct (draw_cells_returns (seq 0 (Z.to_nat size)) vial) as [cells ->].
  by eexists.
Qed.


Lemma string_get_lookup n (s : string) :
  String.get n s = list_ascii_of_string s !! n.
Proof.
  revert n. induction s as [|c s IH]; intros [|n]; simpl; auto.
Qed.

Lemma ansi_fg_NoDup : NoDup _ANSI_FG_COLORS.
Proof. apply (bool_decide_unpack _). by vm_compute. Qed.

Lemma symbols_NoDup : NoDup (list_ascii_of_string _SYMBOLS).
Proof. apply (bool_decide_unpack _). by vm_compute. Qed.

Lemma mod_12_62_372 (u v : Z) :
  (u `mod` 12 = v `mod` 12 ∧ u `mod` 62 = v `mod` 62 ↔ u `mod` 372 = v `mod` 372)%Z.
Proof.
  split.
  - intros [H12 H62].
    pose proof (Z.div_mod u 12 ltac:(lia)) as Hu12.
    pose proof (Z.div_mod v 12 ltac:(lia)) as Hv12.
    pose proof (Z.div_mod u 62 ltac:(lia)) as Hu62.
    pose proof (Z.div_mod v 62 ltac:(lia)) as Hv62.
    rewrite H12 in Hu12. rewrite H62 in Hu62.
    revert Hu12 Hv12 Hu62 Hv62.
    generalize (u `div` 12)%Z (v `div` 12)%Z (u `div` 62)%Z (v `div` 62)%Z
               (v `mod` 12)%Z (v `mod` 62)%Z.
    intros a a' b b' r s Hu12 Hv12 Hu62 Hv62.
    assert (u = v + ((a - a') - 5 * (b - b')) * 372)%Z as -> by lia.
    apply Z_mod_plus_full.
  - intros H372.
    pose proof (Z.div_mod u 372 ltac:(lia)) as Hu.
    pose proof (Z.div_mod v 372 ltac:(lia)) as Hv.
    rewrite H372 in Hu.
    assert (u = v + (u `div` 372 - v `div` 372) * 31 * 12)%Z as H12 by lia.
    assert (u = v + (u `div` 372 - v `div` 372) * 6 * 62)%Z as H62 by lia.
    split.
    + rewrite H12 at 1. apply Z_mod_plus_full.
    + rewrite H62 at 1. apply Z_mod_plus_full.
Qed.

(** X11: Two units are drawn alike, same colour and same symbol, exactly when
    they are equal modulo 372: the twelve colours and the sixty-two symbols
    tell apart 372 units and no more. *)
Theorem draw_unit_alike (u v : Z) :
  draw_unit u = draw_unit v ↔ (u `mod` 372 = v `mod` 372)%Z.
Proof.
  rewrite <- mod_12_62_372. unfold draw_unit.
  destruct (ansi_fg_lookup u) as (fg_u & Hfu & ->).
  destruct (ansi_fg_lookup v) as (fg_v & Hfv & ->).
  destruct (symbol_lookup u) as (c_u & Hcu & ->).
  destruct (symbol_lookup v) as (c_v & Hcv & ->).
  pose proof (Z.mod_pos_bound u 12 ltac:(lia)).
  pose proof (Z.mod_pos_bound v 12 ltac:(lia)).
  pose proof (Z.mod_pos_bound u 62 ltac:(lia)).
  pose proof (Z.mod_pos_bound v 62 ltac:(lia)).
  rewrite string_get_lookup in Hcu, Hcv. simpl. split.
  - intros [= -> ->].
    pose proof (NoDup_lookup _ _ _ _ ansi_fg_NoDup Hfu Hfv).
    pose proof (NoDup_lookup _ _ _ _ symbols_NoDup Hcu Hcv). lia.
  - intros [H12 H62]. rewrite H12 in Hfu. rewrite H62 in Hcu. congruence.
Qed.

(** ** The generator *)

Lemma range_list_count (n : Z) :
  range_list 0 n 1 = Z.of_nat <$> seq 0 (Z.to_nat n).
Proof.
  unfold range_list. rewrite bool_decide_eq_true_2 by lia.
  replace (n - 0 + 1 - 1)%Z with n by lia. rewrite Z.div_1_r.
  apply list_fmap_ext. intros _ k _. lia.
Qed.

Lemma range_list_starts (n size : Z) :
  size ≠ 0%Z →
  range_list 0 (n * size) size
  = (λ k, Z.of_nat k * size)%Z <$> seq 0 (Z.to_nat n).
Proof.
  intros Hsize. unfold range_list.
  assert (∀ w, 0 < w → (n * w + w - 1) `div` w = n)%Z as Hdiv.
  { intros w Hw. replace (n * w + w - 1)%Z with (w - 1 + n * w)%Z by lia.
    rewrite Z.div_add by lia. rewrite Z.div_small; lia. }
  case_bool_decide as Hpos.
  - replace (n * size - 0 + size - 1)%Z with (n * size + size - 1)%Z by lia.
    rewrite Hdiv by done. apply list_fmap_ext. intros _ k _. lia.
  - replace (0 - n * size - size - 1)%Z with (n * (- size) + (- size) - 1)%Z by lia.
    rewrite Hdiv by lia. apply list_fmap_ext. intros _ k _. lia.
Qed.

Lemma fill_items_spec colors (size : Z) items :
  fill_items colors size items
  = items ++ concat ((λ color, replicate (Z.to_nat size) color) <$> colors).
Proof.
  revert items. induction colors as [|color colors IH]; intros items; simpl.
  - by rewrite app_nil_r.
  - by rewrite IH, <- app_assoc.
Qed.

Lemma chunk_items_spec starts (size : Z) items ret :
  chunk_items starts size items ret
  = ret ++ ((λ i, py_slice items i (i + size)) <$> starts).
Proof.
  revert ret. induction starts as [|i starts IH]; intros ret; simpl.
  - by rewrite app_nil_r.
  - by rewrite IH, <- app_assoc.
Qed.

Lemma py_slice_chunk (items : list Z) (k size : nat) :
  py_slice items (Z.of_nat k * Z.of_nat size) (Z.of_nat k * Z.of_nat size + Z.of_nat size)
  = take size (drop (k * size) items).
Proof.
  unfold py_slice, slice_bound.
  rewrite !bool_decide_eq_false_2 by lia.
  replace (Z.to_nat (Z.of_nat k * Z.of_nat size)) with (k * size) by lia.
  replace (Z.to_nat (Z.of_nat k * Z.of_nat size + Z.of_nat size))
    with (k * size + size) by lia.
  destruct (decide (k * size + size ≤ length items)) as [Hin|Hout].
  - rewrite !Nat.min_l by lia. f_equal. lia.
  - destruct (decide (k * size ≤ length items)).
    + rewrite (Nat.min_r (k * size + size)), (Nat.min_l (k * size)) by lia.
      rewrite !take_ge; [done | rewrite length_drop; lia | rewrite length_drop; lia].
    + rewrite !Nat.min_r by lia. rewrite Nat.sub_diag. simpl.
      rewrite !drop_ge by lia. by destruct size.
Qed.

(** Cutting a list of [n * size] elements into [n] slices of [size]. *)
Lemma chunks_concat (items : list Z) (n size : nat) :
  length items = n * size →
  concat ((λ k, take size (drop (k * size) items)) <$> seq 0 n) = items
  ∧ Forall (λ vial, length vial = size)
      ((λ k, take size (drop (k * size) items)) <$> seq 0 n).
Proof.
  revert items. induction n as [|n IH]; intros items Hlen.
  - simpl in *. split; [|done]. symmetry. by apply nil_length_inv.
  - change (seq 0 (S n)) with (0 :: seq 1 n). rewrite fmap_cons.
    change (0 * size) with 0. rewrite drop_0.
    destruct (IH (drop size items)) as [Hcat Hall].
    { rewrite length_drop. lia. }
    assert (((λ k, take size (drop (k * size) items)) <$> seq 1 n)
            = ((λ k, take size (drop (k * size) (drop size items))) <$> seq 0 n))
      as ->.
    { rewrite <- (fmap_S_seq 0), <- list_fmap_compose.
      apply list_fmap_ext. intros _ k _. simpl. by rewrite drop_drop. }
    split.
    + simpl. by rewrite Hcat, take_drop.
    + constructor; [|done]. rewrite length_take. lia.
Qed.

Lemma length_colour_units (n size : nat) : length (colour_units n size) = n * size.
Proof.
  unfold colour_units. generalize 0 as start.
  induction n as [|n IH]; intros start; simpl; [done|].
  by rewrite length_app, length_replicate, IH.
Qed.

Section generator.
Variable shuffle : list Z → list Z.
Hypothesis shuffle_perm : ∀ items, shuffle items ≡ₚ items.

(** For a [vial_size] that is not zero the generator returns as many vials
    as asked for, each of exactly [vial_size] units, holding between them
    [vial_size] units of each colour. *)
Lemma generate_random_vials_Ret (num_vials size : Z) :
  size ≠ 0%Z →
  ∃ vs,
    generate_random_vials shuffle num_vials size = Ret vs
    ∧ length vs = Z.to_nat num_vials
    ∧ Forall (λ vial, length vial = Z.to_nat size) vs
    ∧ concat vs ≡ₚ colour_units (Z.to_nat num_vials) (Z.to_nat size).
Proof.
  intros Hsize. unfold generate_random_vials, py_range.
  rewrite bool_decide_eq_false_2 by done. simpl.
  rewrite range_list_starts, range_list_count, fill_items_spec by done.
  rewrite chunk_items_spec. simpl. rewrite <- !list_fmap_compose.
  change (concat ((λ color, replicate (Z.to_nat size) color) ∘ Z.of_nat <$> _))
    with (colour_units (Z.to_nat num_vials) (Z.to_nat size)).
  set (n := Z.to_nat num_vials). set (sz := Z.to_nat size).
  set (items := shuffle (colour_units n sz)).
  assert (length items = n * sz) as Hlen.
  { unfold items. rewrite (Permutation_length (shuffle_perm _)).
    apply length_colour_units. }
  assert (((λ i, py_slice items i (i + size)) ∘ (λ k, Z.of_nat k * size)%Z <$> seq 0 n)
          = ((λ k, take sz (drop (k * sz) items)) <$> seq 0 n)) as ->.
  { apply list_fmap_ext. intros _ k _. simpl.
    destruct (decide (0 < size)%Z) as [Hpos|Hneg].
    - replace size with (Z.of_nat sz) by (unfold sz; lia).
      by rewrite py_slice_chunk.
    - assert (sz = 0) as Hsz by (unfold sz; lia).
      rewrite Hsz, Nat.mul_0_r in Hlen. apply nil_length_inv in Hlen.
      rewrite Hlen, Hsz. unfold py_slice. by rewrite drop_nil, !take_nil. }
  destruct (chunks_concat items n sz Hlen) as [Hcat Hall].
  eexists. split_and!; [done | | done |].
  - by rewrite length_fmap, length_seq.
  - rewrite Hcat. apply shuffle_perm.
Qed.

Lemma generate_random_vials_zero (num_vials : Z) :
  generate_random_vials shuffle num_vials 0
  = Raise (ValueError "range() arg 3 must not be zero").
Proof. done. Qed.
End generator.

(** ** From a board to its record and back *)

Lemma vial_of_json (vial : list Z) : vial_of (JArray (JInt <$> vial)) = Some vial.
Proof. simpl. by apply mapM_fmap_Some. Qed.

Lemma good_vial_json (z : Z) (vial : list Z) :
  (Z.of_nat (length vial) ≤ z)%Z → good_vial (JInt z) (JArray (JInt <$> vial)).
Proof.
  intros Hfit. apply good_vial_int. exists (JInt <$> vial).
  rewrite length_fmap. split_and!; [done..|].
  apply Forall_fmap. by apply Forall_true.
Qed.

Lemma record_accepted (z : Z) (vs : list (list Z)) :
  Forall (λ vial, (Z.of_nat (length vial) ≤ z)%Z) vs →
  ∃ p,
    load_board_data (JObject [("vial_size", JInt z); ("vials", json_of_vials vs)])
    = Ret p
    ∧ Board_of_puzzle p = Some (Board_init z vs).
Proof.
  intros Hcap. unfold load_board_data, json_of_vials. simpl.
  destruct (check_vials_cases (JInt z) ((λ vial, JArray (JInt <$> vial)) <$> vs))
    as [[-> _]|[_ Hbad]].
  - simpl. eexists. split; [done|]. unfold Board_of_puzzle. simpl.
    rewrite (mapM_fmap_Some vial_of (λ vial, JArray (JInt <$> vial)) vs
               vial_of_json).
    done.
  - destruct Hbad. apply Forall_fmap. eapply Forall_impl; [exact Hcap|].
    intros vial Hfit. by apply good_vial_json.
Qed.

(** X9: The record of a board within capacity, with [vial_size] and [vials]
    as the generator writes them, is accepted by [load_board], and what is
    loaded is that board, with an empty history. *)
Theorem load_board_of_record (z : Z) (vs : list (list Z)) :
  Forall (λ vial, (Z.of_nat (length vial) ≤ z)%Z) vs →
  ∃ p,
    load_board_data (JObject [("vial_size", JInt z); ("vials", json_of_vials vs)])
    = Ret p
    ∧ Board_of_puzzle p = Some (Board_init z vs).
Proof. apply record_accepted. Qed.

Lemma load_board_of_record_witness :
  ∃ p,
    load_board_data
      (JObject [("vial_size", JInt 4);
                ("vials", json_of_vials [[1; 1]; [1]; []]%Z)])
    = Ret p
    ∧ Board_of_puzzle p = Some (Board_init 4 [[1; 1]; [1]; []]%Z).
Proof.
  apply load_board_of_record. repeat constructor; simpl; lia.
Defined.

(** ** What the generator writes *)

(** X12: [generate_random_vials], for every [shuffle] that only rearranges:
    with [vial_size = 0] it raises the [ValueError] of [range]; otherwise
    it returns [num_vials] vials (none for a negative number) of exactly
    [vial_size] units each (none for a negative size), which hold between
    them [vial_size] units of each of the colours [0] to [num_vials - 1]. *)
Theorem generate_random_vials_spec (shuffle : list Z → list Z) (num_vials size : Z) :
  (∀ items, shuffle items ≡ₚ items) →
  (size = 0%Z →
   generate_random_vials shuffle num_vials size
   = Raise (ValueError "range() arg 3 must not be zero"))
  ∧ (size ≠ 0%Z →
     ∃ vs,
       generate_random_vials shuffle num_vials size = Ret vs
       ∧ length vs = Z.to_nat num_vials
       ∧ Forall (λ vial, length vial = Z.to_nat size) vs
       ∧ concat vs ≡ₚ colour_units (Z.to_nat num_vials) (Z.to_nat size)).
Proof.
  intros Hshuffle. split.
  - intros ->. apply generate_random_vials_zero.
  - by apply generate_random_vials_Ret.
Qed.

Lemma generate_random_vials_spec_witness :
  (2%Z = 0%Z →
   generate_random_vials reverse 3 2
   = Raise (ValueError "range() arg 3 must not be zero"))
  ∧ (2%Z ≠ 0%Z →
     ∃ vs,
       generate_random_vials reverse 3 2 = Ret vs
       ∧ length vs = Z.to_nat 3
       ∧ Forall (λ vial, length vial = Z.to_nat 2) vs
       ∧ concat vs ≡ₚ colour_units (Z.to_nat 3) (Z.to_nat 2)).
Proof. apply generate_random_vials_spec. apply reverse_Permutation. Defined.

(** X13: The generator's [main], for every [shuffle] that only rearranges.  A
    negative argument gives an error message.  [--vial-size 0] passes the
    three sign checks and raises [ValueError].  Otherwise the record it
    prints is accepted by [load_board], and the board loaded has
    [num_colors + num_empty_vials] vials, each empty or full, all within
    capacity, holding [vial_size] units of each colour. *)
Theorem generator_main_spec (shuffle : list Z → list Z)
    (num_colors num_empty_vials size : Z) :
  (∀ items, shuffle items ≡ₚ items) →
  ((num_colors < 0 ∨ num_empty_vials < 0 ∨ size < 0)%Z →
   ∃ message,
     generator_main shuffle num_colors num_empty_vials size
     = Ret (GenError message))
  ∧ ((0 ≤ num_colors)%Z → (0 ≤ num_empty_vials)%Z → size = 0%Z →
     generator_main shuffle num_colors num_empty_vials size
     = Raise (ValueError "range() arg 3 must not be zero"))
  ∧ ((0 ≤ num_colors)%Z → (0 ≤ num_empty_vials)%Z → (0 < size)%Z →
     ∃ data p board,
       generator_main shuffle num_colors num_empty_vials size
       = Ret (GenPuzzle data)
       ∧ load_board_data data = Ret p
       ∧ Board_of_puzzle p = Some board
       ∧ vial_size board = size ∧ _history board = []
       ∧ Z.of_nat (Board_get_num_vials board) = (num_colors + num_empty_vials)%Z
       ∧ Forall (λ vial, vial = [] ∨ Z.of_nat (length vial) = size) (vials board)
       ∧ capacity_ok board
       ∧ all_units board ≡ₚ colour_units (Z.to_nat num_colors) (Z.to_nat size)).
Proof.
  intros Hshuffle. unfold generator_main. split_and!.
  - intros Hneg. repeat case_bool_decide; try by eexists. lia.
  - intros Hc He ->. rewrite !bool_decide_eq_false_2 by lia.
    by rewrite generate_random_vials_zero.
  - intros Hc He Hs. rewrite !bool_decide_eq_false_2 by lia.
    destruct (generate_random_vials_Ret shuffle Hshuffle num_colors size)
      as (vs & -> & Hlen & Hfull & Hperm); [lia|].
    simpl. rewrite range_list_count, <- list_fmap_compose.
    set (all := vs ++ ((λ _, []) ∘ Z.of_nat <$> seq 0 (Z.to_nat num_empty_vials))).
    assert (Forall (λ vial, vial = [] ∨ Z.of_nat (length vial) = size) all) as Hall.
    { apply Forall_app. split.
      - eapply Forall_impl; [exact Hfull|]. intros vial Hv. simpl in Hv.
        right. lia.
      - apply Forall_fmap. apply Forall_true. intros c. by left. }
    assert (Forall (λ vial, (Z.of_nat (length vial) ≤ size)%Z) all) as Hcap.
    { eapply Forall_impl; [exact Hall|]. intros vial [->|Hv]; simpl in *; lia. }
    destruct (record_accepted size all Hcap) as (p & Hload & Hboard).
    exists (JObject [("vial_size", JInt size); ("vials", json_of_vials all)]),
      p, (Board_init size all).
    unfold capacity_ok, all_units. rewrite vials_init.
    split_and!; try done.
    + unfold Board_get_num_vials, all. simpl.
      rewrite length_fmap, length_app, length_fmap, length_seq. lia.
    + unfold all. rewrite concat_app.
      assert (concat ((λ _, []) ∘ Z.of_nat <$> seq 0 (Z.to_nat num_empty_vials))
              = ([] : list Z)) as ->.
      { generalize (seq 0 (Z.to_nat num_empty_vials)).
        intros l. by induction l. }
      by rewrite app_nil_r.
Qed.

Lemma generator_main_spec_witness :
  ∃ data p board,
    generator_main reverse 2 1 2 = Ret (GenPuzzle data)
    ∧ load_board_data data = Ret p
    ∧ Board_of_puzzle p = Some board
    ∧ vial_size board = 2%Z ∧ _history board = []
    ∧ Z.of_nat (Board_get_num_vials board) = (2 + 1)%Z
    ∧ Forall (λ vial, vial = [] ∨ Z.of_nat (length vial) = 2%Z) (vials board)
    ∧ capacity_ok board
    ∧ all_units board ≡ₚ colour_units (Z.to_nat 2) (Z.to_nat 2).
Proof.
  refine (proj2 (proj2 (generator_main_spec reverse 2 1 2 _)) _ _ _); try lia.
  apply reverse_Permutation.
Defined.
(** ** The interactive loop *)

Lemma render_vials_returns board indices pos_x :
  Forall (λ i, i < length (vials board)) indices →
  ∃ printed, render_vials board indices pos_x = Ret printed.
Proof.
  intros Hall. revert pos_x.
  induction Hall as [|i indices Hi _ IH]; intros pos_x; simpl; [by eexists|].
  unfold tuple_get. rewrite norm_index_valid by lia. rewrite Nat2Z.id.
  destruct (lookup_lt_is_Some_2 _ _ Hi) as [vial ->]. simpl.
  destruct (draw_vial_Ret (Z.of_nat i) vial (vial_size board)) as [drawn ->].
  simpl.
  match goal with
  | |- context [render_vials board indices ?next] =>
      destruct (IH next) as [more ->]
  end.
  by eexists.
Qed.

Lemma render_board_returns board : ∃ printed, render_board board = Ret printed.
Proof.
  unfold render_board.
  destruct (render_vials_returns board (seq 0 (length (vials board))) 0)
    as [drawn ->]; [|by eexists].
  apply Forall_forall. intros i Hi. apply elem_of_seq in Hi. lia.
Qed.

(** A pour from past the last vial raises [IndexError]. *)
Lemma Board_pour_stale fuel (f t : Z) board :
  (Z.of_nat (length (vials board)) ≤ f)%Z →
  Board_pour fuel f t board = Raise IndexError.
Proof.
  rewrite length_vials. intros Hf.
  unfold Board_pour, Board_apply_action, Action_apply, PourAction_apply.
  simpl. unfold vial_ref at 1, norm_index.
  rewrite bool_decide_eq_true_2 by lia. by rewrite bool_decide_eq_false_2 by lia.
Qed.

Section reachable_boards.
Variable board0 : Board.
Hypothesis history0 : _history board0 = [].
Hypothesis distinct0 : distinct_objects board0.

(** On a reachable board [undo] returns, and the number of units is the
    initial one. *)
Lemma reachable_undo_returns board :
  reachable board0 board →
  ∃ board', Board_undo board = Ret board' ∧ reachable board0 board'.
Proof.
  intros Hreach.
  destruct (reachable_retraces (λ _, True)) with (board0 := board0) (board := board)
    as [_ Htr]; try done.
  destruct Htr as [board Hnil|board board'' action Hh Hback _ _].
  - exists board. split; [by apply Board_undo_empty | done].
  - exists board''. split; [done|]. by eapply reachable_undo.
Qed.

Lemma reachable_units_length board :
  reachable board0 board →
  distinct_objects board ∧ length (all_units board) = length (all_units board0).
Proof.
  intros Hreach.
  destruct (reachable_retraces
              (λ b, distinct_objects b
                    ∧ length (all_units b) = length (all_units board0)))
    with (board0 := board0) (board := board) as [H _]; try done.
  intros fuel c b b' [Hd Hb] Hcall.
  destruct (Board_call_units _ _ _ _ Hcall) as (_ & _ & _ & Hdu).
  destruct (Hdu Hd) as [Hd' Hu]. split; [done|].
  by rewrite (Permutation_length Hu).
Qed.
End reachable_boards.

Section play_steps.
Variable py_int : string → option Z.
Variable py_lower : string → string.
Variable board0 : Board.
Hypothesis history0 : _history board0 = [].
Hypothesis distinct0 : distinct_objects board0.

(** What a step keeps: the board stays reachable, [playing] is untouched, a
    selection stays non-negative, and it stays valid unless the step was an
    undo. *)
Definition step_keeps (user_line : string) (st st' : play_state) : Prop :=
  reachable board0 (board_of st')
  ∧ playing st' = playing st
  ∧ (selection_nonneg st → selection_nonneg st')
  ∧ (selection_valid st → ¬ is_undo py_lower user_line → selection_valid st').

Lemma step_keeps_trans user_line st st' st'' :
  step_keeps user_line st st' → step_keeps user_line st' st'' →
  step_keeps user_line st st''.
Proof.
  intros (_ & Hp & Hn & Hv) (Hr' & Hp' & Hn' & Hv').
  split_and!; [done | congruence | auto | auto].
Qed.

Lemma step_keeps_same user_line st text :
  reachable board0 (board_of st) →
  step_keeps user_line st
    (mkPlay (board_of st) (selected_vial_index st) text (playing st)).
Proof. intros Hreach. by split_and!. Qed.

Lemma step_keeps_deselect user_line st board text :
  reachable board0 board →
  step_keeps user_line st (mkPlay board None text (playing st)).
Proof.
  intros Hreach. split_and!; [done..| |]; intros _; try intros _;
    intros s Hs; discriminate.
Qed.

Lemma play_keys_returns st user_line :
  reachable board0 (board_of st) →
  ∃ st', play_keys py_lower st user_line = Ret st' ∧ step_keeps user_line st st'.
Proof.
  intros Hreach. unfold play_keys.
  destruct (bool_decide (user_line = "c") || bool_decide (user_line = "C")).
  { eexists. split; [done|]. by apply step_keeps_deselect. }
  destruct (bool_decide (user_line = "v") || bool_decide (user_line = "V")).
  { eexists. split; [reflexivity|]. split_and!; try done.
    - by apply (reachable_call board0 0 CallAddEmptyVial (board_of st)).
    - intros Hvalid _ s Hs. specialize (Hvalid s Hs).
      unfold valid_index in *. rewrite length_vials in *. simpl.
      rewrite length_app. simpl. lia. }
  set (st1 := if bool_decide (py_lower user_line = "help") then _ else st).
  assert (step_keeps user_line st st1 ∧ board_of st1 = board_of st) as [Hst1 Hb1].
  { unfold st1. case_bool_decide; (split; [|done]).
    - by apply step_keeps_same.
    - by split_and!. }
  destruct (bool_decide (user_line = "u") || bool_decide (user_line = "U")
            || bool_decide (py_lower user_line = "undo")) eqn:Hundo.
  { destruct (reachable_undo_returns board0 history0 (board_of st1))
      as (board' & -> & Hreach'); [by rewrite Hb1|].
    eexists. split; [done|].
    destruct Hst1 as (_ & Hp & Hn & _). split_and!; try done.
    intros _ Hnot. destruct Hnot. unfold is_undo.
    apply orb_prop in Hundo as [Hundo|Hundo].
    - apply orb_prop in Hundo as [Hundo|Hundo];
        apply bool_decide_eq_true in Hundo; auto.
    - apply bool_decide_eq_true in Hundo. auto. }
  destruct (bool_decide (py_lower user_line = "xyzzy")).
  - eexists. split; [done|]. eapply step_keeps_trans; [exact Hst1|].
    apply step_keeps_same. by rewrite Hb1.
  - by exists st1.
Qed.

(** The body of the [try] block raises exactly for a stale selection, and
    then it raises [IndexError]. *)
Lemma play_try_cases fuel st user_line :
  reachable board0 (board_of st) → selection_nonneg st →
  length (all_units board0) < fuel →
  ((∃ selected n,
      selected_vial_index st = Some selected
      ∧ py_int user_line = Some n
      ∧ (0 ≤ n - 1 < Z.of_nat (Board_get_num_vials (board_of st)))%Z
      ∧ (Z.of_nat (Board_get_num_vials (board_of st)) ≤ selected)%Z)
   ∧ play_try py_int fuel st user_line = Raise IndexError)
  ∨ (¬ (∃ selected n,
          selected_vial_index st = Some selected
          ∧ py_int user_line = Some n
          ∧ (0 ≤ n - 1 < Z.of_nat (Board_get_num_vials (board_of st)))%Z
          ∧ (Z.of_nat (Board_get_num_vials (board_of st)) ≤ selected)%Z)
     ∧ ∃ r, play_try py_int fuel st user_line = Ret r
            ∧ step_keeps user_line st (match r with inl st' | inr st' => st' end)).
Proof.
  intros Hreach Hnonneg Hfuel. unfold play_try.
  destruct (py_int user_line) as [n|] eqn:Hint.
  2:{ right. split; [by intros (s & n & _ & ? & _)|].
      eexists. split; [done|]. destruct st. by apply step_keeps_same. }
  destruct (bool_decide (n - 1 < 0)%Z
            || bool_decide (Z.of_nat (Board_get_num_vials (board_of st)) ≤ n - 1)%Z)
    eqn:Hrange.
  { right. split.
    - intros (s & n' & _ & [= <-] & Hin & _).
      apply orb_prop in Hrange as [H|H]; apply bool_decide_eq_true in H; lia.
    - eexists. split; [done|]. by apply step_keeps_same. }
  apply orb_false_elim in Hrange as [Hlo Hhi].
  apply bool_decide_eq_false in Hlo, Hhi.
  assert (valid_index (board_of st) (n - 1)) as Hidx.
  { unfold valid_index, Board_get_num_vials in *. rewrite length_vials. lia. }
  destruct (selected_vial_index st) as [s|] eqn:Hsel.
  2:{ right. split; [by intros (s & n' & ? & _)|].
      unfold Board_is_vial_empty.
      destruct (valid_index_lookup _ _ Hidx) as [-> _]. simpl.
      case_bool_decide; eexists; (split; [done|]).
      - by apply step_keeps_deselect.
      - split_and!; try done.
        + intros _ s' [= <-]. unfold valid_index in Hidx. lia.
        + intros _ _ s' [= <-]. done. }
  specialize (Hnonneg s Hsel).
  case_bool_decide as Hsame.
  2:{ right. split.
      - intros (s' & n' & [= <-] & [= <-] & Hin & Hstale).
        unfold Board_get_num_vials in *. lia.
      - eexists. split; [done|]. by apply step_keeps_deselect. }
  destruct (decide (Z.of_nat (Board_get_num_vials (board_of st)) ≤ s)%Z)
    as [Hstale|Hfresh].
  - left. split.
    + exists s, n. split_and!; try done; unfold Board_get_num_vials in *; lia.
    + rewrite Board_pour_stale; [done|].
      rewrite length_vials. unfold Board_get_num_vials in Hstale. lia.
  - right. split; [intros (s' & n' & [= <-] & _ & _ & ?); lia|].
    destruct (reachable_units_length board0 history0 distinct0 (board_of st) Hreach)
      as [Hd Hlen].
    assert (valid_index (board_of st) s) as Hs.
    { unfold valid_index, Board_get_num_vials in *. rewrite length_vials. lia. }
    destruct (Board_pour_returns fuel s (n - 1) (board_of st)) as [board' Hpour];
      try done.
    { by apply distinct_objects_differ. }
    { by rewrite Hlen. }
    simpl in Hpour. rewrite Hpour. eexists. split; [done|].
    apply step_keeps_deselect.
    by apply (reachable_call board0 fuel (CallPour s (n - 1)) (board_of st)).
Qed.
End play_steps.

Section play_loop.
Variable py_int : string → option Z.
Variable py_lower : string → string.
Variable board0 : Board.
Hypothesis history0 : _history board0 = [].
Hypothesis distinct0 : distinct_objects board0.

Lemma play_command_step fuel st user_line :
  reachable board0 (board_of st) → selection_nonneg st →
  length (all_units board0) < fuel →
  (stale_pour py_int st user_line
   ∧ play_command py_int py_lower fuel st user_line = Raise IndexError)
  ∨ (¬ stale_pour py_int st user_line
     ∧ ∃ st', play_command py_int py_lower fuel st user_line = Ret st'
              ∧ step_keeps py_lower board0 user_line st st').
Proof.
  intros Hreach Hnonneg Hfuel. unfold play_command.
  set (st0 := mkPlay (board_of st) (selected_vial_index st) None (playing st)).
  assert (step_keeps py_lower board0 user_line st st0) as H0.
  { by apply step_keeps_same. }
  case_bool_decide as Hempty.
  { right. split; [|by exists st0].
    intros [Hne _]. destruct user_line; [done | simpl in Hempty; lia]. }
  assert (user_line ≠ "") as Hne by (by intros ->).
  destruct (play_try_cases py_int py_lower board0 history0 distinct0 fuel st0
              user_line)
    as [[Hstale Htry]|[Hfresh (r & Htry & Hkeep)]]; try done.
  - left. split; [by split|]. unfold play_number. by rewrite Htry.
  - right. split; [by intros [_ ?]|]. unfold play_number. rewrite Htry. simpl.
    destruct r as [st'|st'].
    + exists st'. split; [done|].
      eapply step_keeps_trans; [exact H0 | exact Hkeep].
    + destruct Hkeep as (Hr' & Hrest).
      destruct (play_keys_returns py_lower board0 history0 st' user_line Hr')
        as (st'' & -> & Hkeep').
      exists st''. split; [done|].
      eapply step_keeps_trans; [exact H0|].
      eapply step_keeps_trans; [|exact Hkeep']. by split.
Qed.

End play_loop.

(** X14: One command of the interactive loop, on a board that returning calls
    produced from a board with an empty history whose vials are all
    different list objects, with a selection that is not negative and more
    fuel than there are units.  The command raises exactly when the
    selected vial is no longer there and the line is the number of a vial
    that is, and then it raises [IndexError]: the pour it issues indexes
    past the last vial.  In every other case it returns.  The board it
    leaves is again reachable, and the selection is again valid if it was
    and the command was not an undo. *)
Theorem play_command_cases (py_int : string → option Z) (py_lower : string → string)
    board0 fuel st user_line :
  distinct_objects board0 → _history board0 = [] →
  reachable board0 (board_of st) → selection_nonneg st →
  length (all_units board0) < fuel →
  (stale_pour py_int st user_line
   ∧ play_command py_int py_lower fuel st user_line = Raise IndexError)
  ∨ (¬ stale_pour py_int st user_line
     ∧ ∃ st', play_command py_int py_lower fuel st user_line = Ret st'
              ∧ reachable board0 (board_of st')
              ∧ playing st' = playing st
              ∧ selection_nonneg st'
              ∧ (selection_valid st → ¬ is_undo py_lower user_line →
                 selection_valid st')).
Proof.
  intros Hd Hempty Hreach Hnonneg Hfuel.
  destruct (play_command_step py_int py_lower board0 Hempty Hd fuel st user_line
              Hreach Hnonneg Hfuel)
    as [?|[Hfresh (st' & Hret & Hr & Hp & Hn & Hv)]]; [by left|].
  right. split; [done|]. exists st'. split_and!; auto.
Qed.

(** The command [3] with vial 1 selected, on the board that [v] and the
    pour of vial 1 into the added vial 3 left: the pour it issues moves
    the unit back. *)
Lemma play_command_cases_witness :
  (stale_pour int_of_digit
     (mkPlay (mkBoard 2 (fresh <$> [[]; [2]; [1]]%Z)
                [AddEmptyVial; Pour (applied_pour 0 2 1)])
        (Some 2%Z) None true) "1"
   ∧ play_command int_of_digit id 5
       (mkPlay (mkBoard 2 (fresh <$> [[]; [2]; [1]]%Z)
                  [AddEmptyVial; Pour (applied_pour 0 2 1)])
          (Some 2%Z) None true) "1"
     = Raise IndexError)
  ∨ (¬ stale_pour int_of_digit
         (mkPlay (mkBoard 2 (fresh <$> [[]; [2]; [1]]%Z)
                    [AddEmptyVial; Pour (applied_pour 0 2 1)])
            (Some 2%Z) None true) "1"
     ∧ ∃ st',
         play_command int_of_digit id 5
           (mkPlay (mkBoard 2 (fresh <$> [[]; [2]; [1]]%Z)
                      [AddEmptyVial; Pour (applied_pour 0 2 1)])
              (Some 2%Z) None true) "1"
         = Ret st'
         ∧ reachable (Board_init 2 [[1]; [2]]%Z) (board_of st')
         ∧ playing st' = true
         ∧ selection_nonneg st'
         ∧ (selection_valid
              (mkPlay (mkBoard 2 (fresh <$> [[]; [2]; [1]]%Z)
                         [AddEmptyVial; Pour (applied_pour 0 2 1)])
                 (Some 2%Z) None true) →
            ¬ is_undo id "1" → selection_valid st')).
Proof.
  apply (play_command_cases int_of_digit id (Board_init 2 [[1]; [2]]%Z) 5
           (mkPlay (mkBoard 2 (fresh <$> [[]; [2]; [1]]%Z)
                      [AddEmptyVial; Pour (applied_pour 0 2 1)])
              (Some 2%Z) None true) "1").
  - apply distinct_objects_init.
  - reflexivity.
  - apply (reachable_call _ 5 (CallPour 0 2)
             (mkBoard 2 (fresh <$> [[1]; [2]; []]%Z) [AddEmptyVial]));
      [|reflexivity].
    apply (reachable_call _ 0 CallAddEmptyVial (Board_init 2 [[1]; [2]]%Z));
      [apply reachable_init | reflexivity].
  - intros s [= <-]. lia.
  - simpl. lia.
Defined.



(** The run that ends in [IndexError]: add a vial, pour into it, select it,
    undo the pour, undo the added vial, then name a destination. *)
Example play_board_stale_selection :
  play_board int_of_digit id 5 (Board_init 2 [[1]; [2]]%Z)
    ["v"; "1"; "3"; "3"; "u"; "u"; "1"]
  = Raise IndexError.
Proof. reflexivity. Qed.

(** A command that issues a pour which never returns does not return. *)
Lemma play_command_hangs (py_int : string → option Z) (py_lower : string → string)
    fuel st user_line (n selected : Z) :
  user_line ≠ "" → py_int user_line = Some n →
  (0 ≤ n - 1 < Z.of_nat (Board_get_num_vials (board_of st)))%Z →
  selected_vial_index st = Some selected → selected ≠ (n - 1)%Z →
  Board_pour fuel selected (n - 1) (board_of st) = OutOfFuel →
  play_command py_int py_lower fuel st user_line = OutOfFuel.
Proof.
  intros Hline Hint Hn Hsel Hne Hpour. unfold play_command.
  rewrite bool_decide_eq_false_2 by (by destruct user_line).
  unfold play_number, play_try. cbn [board_of selected_vial_index].
  rewrite Hint, Hsel.
  rewrite (bool_decide_eq_false_2 (n - 1 < 0)%Z) by lia.
  rewrite (bool_decide_eq_false_2 (_ ≤ n - 1)%Z) by lia.
  cbn [orb]. rewrite (bool_decide_eq_true_2 (selected ≠ (n - 1)%Z)) by done.
  by rewrite Hpour.
Qed.

(** On [Board(4, [v, v])] with [v = [1]] the loop does hang: with vial 1
    selected, the line [2] issues [board.pour(0, 1)] on one list object. *)
Example play_board_shared_vial_hangs fuel :
  play_board int_of_digit id fuel (Board_of_slots 4 [fresh [1%Z]; shared 0])
    ["1"; "2"]
  = OutOfFuel.
Proof.
  set (board := Board_of_slots 4 [fresh [1%Z]; shared 0]).
  assert (play_command int_of_digit id fuel (mkPlay board None None true) "1"
          = Ret (mkPlay board (Some 0%Z) None true)) as Hone by reflexivity.
  assert (play_command int_of_digit id fuel (mkPlay board (Some 0%Z) None true) "2"
          = OutOfFuel) as Htwo.
  { apply (play_command_hangs _ _ _ _ _ 2 0); [done | done | by compute | done | done |].
    unfold Board_pour, Board_apply_action, Action_apply.
    cbn [board_of]. unfold board. change (2 - 1)%Z with 1%Z.
    by rewrite (shared_pour_hangs fuel). }
  unfold play_board. cbn [play_loop board_of].
  destruct (render_board_returns board) as [drawn ->].
  cbn [mbind outcome_bind].
  change (Board_is_solved board) with false. cbv iota.
  rewrite Hone. cbn [mbind outcome_bind play_loop board_of].
  destruct (render_board_returns board) as [drawn' ->].
  cbn [mbind outcome_bind].
  change (Board_is_solved board) with false. cbv iota.
  by rewrite Htwo.
Qed.
